(** * A round-robin load balancer over Kubernetes endpoints

    Shallow embedding of [endpoints.go] (package [endpoints]): the
    [LoadBalancer] with its backend slice and round-robin cursor, the
    configuration defaults, the directory client [get], the transform
    [formatEndpoints], the one-shot and background synchronisation entry
    points, and an interleaving model of the background goroutines used for
    the shutdown protocol. *)

From stdpp Require Import gmap strings list pretty.

Open Scope Z_scope.

(** ** Go machine integers

    [int] is taken to be 64 bits wide (the platforms the program is built
    for); arithmetic on it wraps around. *)
Module GoInt.

Definition min_int : Z := - 2 ^ 63.
Definition max_int : Z := 2 ^ 63 - 1.

Definition wrap (z : Z) : Z := (z + 2 ^ 63) `mod` 2 ^ 64 - 2 ^ 63.

Definition in_range (z : Z) : Prop := min_int ≤ z ≤ max_int.

End GoInt.

(** [len(s)] of a slice, as a Go [int]. *)
Definition len {A} (s : list A) : Z := Z.of_nat (length s).

(** [s[i]] on a slice: [None] stands for the run-time panic
    "index out of range" that Go raises when [i < 0] or [i >= len(s)]. *)
Definition slice_index {A} (s : list A) (i : Z) : option A :=
  if decide (0 ≤ i < len s) then s !! Z.to_nat i else None.

(** [strconv.FormatInt(v, 10)]: decimal digits, a leading minus sign for
    negative numbers. *)
Definition FormatInt (v : Z) : string := pretty v.

(** ** Data model *)

(** [type Endpoint struct { Host, Port string; Ports map[string]string }].
    A [nil] map and an empty map read alike; both are the empty [gmap]. *)
Record Endpoint := mkEndpoint {
  Host : string;
  Port : string;
  Ports : gmap string string
}.

(** The zero value [Endpoint{}]. *)
Definition Endpoint_zero : Endpoint :=
  {| Host := ""; Port := ""; Ports := ∅ |}.

#[global] Instance Endpoint_eq_dec : EqDecision Endpoint.
Proof. solve_decision. Defined.

(** JSON shapes exchanged with the directory service. *)
Module api.

(** Modelled from the spec: the declaration of the unexported type
    [address] is not part of the sources at hand; §6 gives the wire shape
    [addresses: [{ip}]], and [formatEndpoints] selects [IP]. *)
Record address := mkAddress { IP : string }.

(** Modelled from the spec: the declaration of [port] is not at hand; §6
    gives [ports: [{name?, port}]]. [formatEndpoints] converts [Port] with
    [int64(...)], so it is an integer no wider than 64 bits and the
    conversion is exact. *)
Record port := mkPort { Name : string; Port : Z }.

(** Modelled from the spec: the declaration of [subset] is not at hand; §6
    gives [{addresses: [...], ports: [...]}]. *)
Record subset := mkSubset { Addresses : list address; Ports : list port }.

(** Modelled from the spec: the declaration of [endpoints] is not at hand;
    §6 gives [{subsets: [...]}], and [{message}] on an [ERROR] event. *)
Record endpoints := mkEndpoints { Subsets : list subset; Message : string }.

(** Modelled from the spec: the declaration of [object] is not at hand; §6
    gives the watch event [{type, object}]. *)
Record object := mkObject { Object : endpoints; Type_ : string }.

(** Modelled from the spec: the declaration of [status] is not at hand; §6
    gives the error payload [{message, code}]. *)
Record status := mkStatus { status_Message : string; Code : Z }.

End api.

(** [*http.Client]: only the identity of the handle matters here. *)
Inductive http_Client := DefaultClient | CustomClient (id : nat).

(** [*log.Logger], as built by [log.New(out, prefix, flags)]. *)
Inductive Writer := Stderr | OtherWriter (id : nat).
Record Logger := mkLogger { out : Writer; prefix : string; flags : Z }.

Definition LstdFlags : Z := 3.

(** [time.Duration]: a count of nanoseconds. *)
Definition Duration := Z.
Definition Second : Duration := 1000000000.

Definition defaultSyncInterval : Duration := 30 * Second.
Definition defaultRetryDelay : Duration := 5 * Second.

Definition DefaultAPIAddr : string := "127.0.0.1:8001".
Definition DefaultNamespace : string := "default".

Record Config := mkConfig {
  APIAddr : string;
  Client : option http_Client;
  ErrorLog : option Logger;
  Namespace : string;
  RetryDelay : Duration;
  Service : string;
  SyncInterval : Duration
}.

(** The [LoadBalancer] struct. [quit] records whether the channel has been
    closed, [wg] is the counter of the wait group; the mutex [mu] has no
    field of its own: every method body that holds it is one transition. *)
Record LoadBalancer := mkLoadBalancer {
  apiAddr : string;
  client : option http_Client;
  errorLog : option Logger;
  namespace : string;
  retryDelay : Duration;
  service : string;
  syncInterval : Duration;
  quit : bool;
  wg : Z;
  currentEndpoint : Z;
  endpoints : list Endpoint
}.

Definition set_currentEndpoint (c : Z) (lb : LoadBalancer) : LoadBalancer :=
  {| apiAddr := apiAddr lb; client := client lb; errorLog := errorLog lb;
     namespace := namespace lb; retryDelay := retryDelay lb;
     service := service lb; syncInterval := syncInterval lb;
     quit := quit lb; wg := wg lb;
     currentEndpoint := c; endpoints := endpoints lb |}.

Definition set_endpoints (eps : list Endpoint) (lb : LoadBalancer) : LoadBalancer :=
  {| apiAddr := apiAddr lb; client := client lb; errorLog := errorLog lb;
     namespace := namespace lb; retryDelay := retryDelay lb;
     service := service lb; syncInterval := syncInterval lb;
     quit := quit lb; wg := wg lb;
     currentEndpoint := currentEndpoint lb; endpoints := eps |}.

Definition set_wg (n : Z) (lb : LoadBalancer) : LoadBalancer :=
  {| apiAddr := apiAddr lb; client := client lb; errorLog := errorLog lb;
     namespace := namespace lb; retryDelay := retryDelay lb;
     service := service lb; syncInterval := syncInterval lb;
     quit := quit lb; wg := n;
     currentEndpoint := currentEndpoint lb; endpoints := endpoints lb |}.

Definition set_quit (q : bool) (lb : LoadBalancer) : LoadBalancer :=
  {| apiAddr := apiAddr lb; client := client lb; errorLog := errorLog lb;
     namespace := namespace lb; retryDelay := retryDelay lb;
     service := service lb; syncInterval := syncInterval lb;
     quit := q; wg := wg lb;
     currentEndpoint := currentEndpoint lb; endpoints := endpoints lb |}.

(** [SyncError]: an error during a Kubernetes API call. *)
Record SyncError := mkSyncError {
  URL : string;
  Message : string;
  Code : Z
}.

(** The [error] values the package produces or passes on. *)
Inductive error :=
  | ErrNoEndpoints
  | ErrMissingServiceName
  | errors_New (text : string)
  | SyncErr (e : SyncError)
  | json_error (text : string).

(** Outcome of running a method body: it returns, or the run-time panics. *)
Inductive exec (A : Type) :=
  | Returns (a : A)
  | Panics.
Arguments Returns {A} a.
Arguments Panics {A}.

(** ** Construction and defaults *)

(** Field assignments [c.F = v] on a [Config]. *)
Definition set_APIAddr (v : string) (c : Config) : Config :=
  mkConfig v (Client c) (ErrorLog c) (Namespace c) (RetryDelay c) (Service c)
           (SyncInterval c).
Definition set_Client (v : option http_Client) (c : Config) : Config :=
  mkConfig (APIAddr c) v (ErrorLog c) (Namespace c) (RetryDelay c) (Service c)
           (SyncInterval c).
Definition set_ErrorLog (v : option Logger) (c : Config) : Config :=
  mkConfig (APIAddr c) (Client c) v (Namespace c) (RetryDelay c) (Service c)
           (SyncInterval c).
Definition set_Namespace (v : string) (c : Config) : Config :=
  mkConfig (APIAddr c) (Client c) (ErrorLog c) v (RetryDelay c) (Service c)
           (SyncInterval c).
Definition set_RetryDelay (v : Duration) (c : Config) : Config :=
  mkConfig (APIAddr c) (Client c) (ErrorLog c) (Namespace c) v (Service c)
           (SyncInterval c).
Definition set_SyncInterval (v : Duration) (c : Config) : Config :=
  mkConfig (APIAddr c) (Client c) (ErrorLog c) (Namespace c) (RetryDelay c)
           (Service c) v.

(** The six [if] statements of [setDefaults], in the order of the source. *)
Definition default_APIAddr (c : Config) : Config :=
  if decide (APIAddr c = "") then set_APIAddr DefaultAPIAddr c else c.
Definition default_Client (c : Config) : Config :=
  if decide (Client c = None) then set_Client (Some DefaultClient) c else c.
Definition default_ErrorLog (c : Config) : Config :=
  if decide (ErrorLog c = None)
  then set_ErrorLog (Some (mkLogger Stderr "" LstdFlags)) c else c.
Definition default_Namespace (c : Config) : Config :=
  if decide (Namespace c = "") then set_Namespace DefaultNamespace c else c.
Definition default_RetryDelay (c : Config) : Config :=
  if decide (RetryDelay c ≤ 0) then set_RetryDelay defaultRetryDelay c else c.
Definition default_SyncInterval (c : Config) : Config :=
  if decide (SyncInterval c ≤ 0)
  then set_SyncInterval defaultSyncInterval c else c.

(** [func (c *Config) setDefaults()]: the contents of [*c] afterwards. *)
Definition setDefaults (c : Config) : Config :=
  default_SyncInterval
    (default_RetryDelay
       (default_Namespace
          (default_ErrorLog (default_Client (default_APIAddr c))))).

(** The caller's memory: [*Config] pointers are addresses of a store. *)
Abbreviation ptr := positive.
Abbreviation heap := (gmap positive Config).

(** [func New(config *Config) *LoadBalancer]. The callee writes through
    [config]; dereferencing a pointer the store does not hold (a [nil] or
    dangling [config]) panics. *)
Definition New (config : ptr) (h : heap) : exec (LoadBalancer * heap) :=
  match h !! config with
  | None => Panics
  | Some c =>
      let c' := setDefaults c in
      let h' := <[config := c']> h in
      Returns ({| apiAddr := APIAddr c'; client := Client c';
                  errorLog := ErrorLog c'; namespace := Namespace c';
                  retryDelay := RetryDelay c'; service := Service c';
                  syncInterval := SyncInterval c';
                  quit := false; wg := 0;
                  currentEndpoint := 0; endpoints := [] |}, h')
  end.

(** ** The snapshot: selection and replacement *)

(** [func (lb *LoadBalancer) Endpoints() []Endpoint]: a copy of the slice. *)
Definition Endpoints (lb : LoadBalancer) : list Endpoint := endpoints lb.

(** [func (lb *LoadBalancer) Next() (Endpoint, error)], with the state of
    the balancer afterwards. *)
Definition Next (lb : LoadBalancer)
  : exec (Endpoint * option error) * LoadBalancer :=
  if decide (len (endpoints lb) ≤ 0) then
    (Returns (Endpoint_zero, Some ErrNoEndpoints), lb)
  else
    let lb1 := if decide (currentEndpoint lb >= len (endpoints lb))
               then set_currentEndpoint 0 lb else lb in
    match slice_index (endpoints lb1) (currentEndpoint lb1) with
    | None => (Panics, lb1)
    | Some endpoint =>
        (Returns (endpoint, None),
         set_currentEndpoint (GoInt.wrap (currentEndpoint lb1 + 1)) lb1)
    end.

(** [func (lb *LoadBalancer) update(endpoints []Endpoint)]. *)
Definition update (eps : list Endpoint) (lb : LoadBalancer) : LoadBalancer :=
  set_endpoints eps lb.

(** ** Registry object to backend set *)

(** The [range] loop over the ports of the first subset. *)
Definition named_ports (ps : list api.port) : gmap string string :=
  foldl (λ ports p,
           if decide (api.Name p ≠ "")
           then <[api.Name p := FormatInt (api.Port p)]> ports
           else ports) ∅ ps.

(** [func formatEndpoints(endpoints endpoints) []Endpoint]. *)
Definition formatEndpoints (e : api.endpoints) : list Endpoint :=
  match api.Subsets e with
  | [] => []
  | s0 :: _ =>
      let port := match api.Ports s0 with
                  | [] => ""
                  | p0 :: _ => FormatInt (api.Port p0)
                  end in
      let ports := match api.Ports s0 with
                   | [] => ∅
                   | _ :: _ => named_ports (api.Ports s0)
                   end in
      foldl (λ eps a, eps ++ [mkEndpoint (api.IP a) port ports])
            [] (api.Addresses s0)
  end.

(** ** Directory client *)

Module url.
(** [url.URL], with the three fields [get] fills in. *)
Record URL := mkURL { Scheme : string; Host : string; Path : string }.
End url.

(** The [http.Request] built by [get]: method, URL and the [Accept] header. *)
Record Request := mkRequest {
  Method : string;
  Request_URL : url.URL;
  Accept : string
}.

(** [context.Context] values handed to [get]. *)
Inductive Context := ctx_TODO | ctx_WithCancel (canceled : bool).

(** An [io.ReadCloser] response body, by what reading it to the end gives:
    the bytes, or a read error. *)
Inductive Body :=
  | Readable (data : string)
  | Unreadable (err : string).

(** [ioutil.ReadAll]. *)
Definition ReadAll (b : Body) : string + string :=
  match b with
  | Readable d => inl d
  | Unreadable err => inr err
  end.

Record Response := mkResponse { StatusCode : Z; Response_Body : Body }.

(** Result of [client.Do]: a response, or a transport error. *)
Inductive DoResult :=
  | DoResponse (resp : Response)
  | DoError (err : string).

(** What the package takes from its libraries and from the network: the
    HTTP round trip (which may depend on the requests sent before), the
    rendering of a URL, and the JSON decoders for the two payloads. A
    decoder yields the decoded value ([inl]) or the text of its error
    ([inr]). *)
Class Environment := {
  client_Do : option http_Client → Context → Request → list Request → DoResult;
  URL_String : url.URL → string;
  json_Unmarshal_status : string → api.status + string;
  json_Decode_endpoints : Body → api.endpoints + string
}.

Definition endpointsPath (ns svc : string) : string :=
  "/api/v1/namespaces/" +:+ ns +:+ "/endpoints/" +:+ svc.
Definition endpointsWatchPath (ns svc : string) : string :=
  "/api/v1/watch/namespaces/" +:+ ns +:+ "/endpoints/" +:+ svc.

(** [func (lb *LoadBalancer) get(ctx, path) (io.ReadCloser, error)].
    [sent] is the list of requests issued so far; the request of this call
    is appended to it. *)
Definition get `{Environment} (lb : LoadBalancer) (ctx : Context)
    (path : string) (sent : list Request)
  : (Body + error) * list Request :=
  let r := {| Method := "GET";
              Request_URL := {| url.Scheme := "http"; url.Host := apiAddr lb;
                                url.Path := path |};
              Accept := "application/json, */*" |} in
  let url := URL_String (Request_URL r) in
  match client_Do (client lb) ctx r sent with
  | DoError err => (inr (errors_New ("endpoints: " +:+ err)), sent ++ [r])
  | DoResponse resp =>
      if decide (StatusCode resp ≠ 200) then
        match ReadAll (Response_Body resp) with
        | inr err =>
            (inr (SyncErr (mkSyncError url err (StatusCode resp))), sent ++ [r])
        | inl d =>
            match json_Unmarshal_status d with
            | inr err =>
                (inr (SyncErr (mkSyncError url err (StatusCode resp))),
                 sent ++ [r])
            | inl s =>
                (inr (SyncErr (mkSyncError url (api.status_Message s)
                                           (api.Code s))),
                 sent ++ [r])
            end
        end
      else (inl (Response_Body resp), sent ++ [r])
  end.

(** ** One-shot and background synchronisation *)

(** Goroutines started with [go]. *)
Inductive Goroutine := go_watchEndpoints | go_reconcile.

(** What a call of the control API can observe and change: the balancer,
    the requests sent to the directory, the goroutines started. *)
Record World := mkWorld {
  balancer : LoadBalancer;
  sent : list Request;
  goroutines : list Goroutine
}.

(** [func (lb *LoadBalancer) syncEndpoints() error]. *)
Definition syncEndpoints `{Environment} (w : World) : option error * World :=
  let lb := balancer w in
  match get lb ctx_TODO (endpointsPath (namespace lb) (service lb)) (sent w) with
  | (inr err, sent') => (Some err, mkWorld lb sent' (goroutines w))
  | (inl r, sent') =>
      match json_Decode_endpoints r with
      | inr err => (Some (json_error err), mkWorld lb sent' (goroutines w))
      | inl eps =>
          (None, mkWorld (update (formatEndpoints eps) lb) sent' (goroutines w))
      end
  end.

(** [func (lb *LoadBalancer) SyncEndpoints() error]. *)
Definition SyncEndpoints `{Environment} (w : World) : option error * World :=
  if decide (service (balancer w) = "") then (Some ErrMissingServiceName, w)
  else syncEndpoints w.

(** [lb.wg.Add(1)]. *)
Definition wg_Add (delta : Z) (lb : LoadBalancer) : LoadBalancer :=
  set_wg (wg lb + delta) lb.

(** [func (lb *LoadBalancer) StartBackgroundSync() error]. *)
Definition StartBackgroundSync (w : World) : option error * World :=
  if decide (service (balancer w) = "") then (Some ErrMissingServiceName, w)
  else
    let w := mkWorld (wg_Add 1 (balancer w)) (sent w)
                     (goroutines w ++ [go_watchEndpoints]) in
    let w := mkWorld (wg_Add 1 (balancer w)) (sent w)
                     (goroutines w ++ [go_reconcile]) in
    (None, w).

(** [lb.wg.Done()]. *)
Definition wg_Done (lb : LoadBalancer) : LoadBalancer := wg_Add (-1) lb.

(** ** The background goroutines as an interleaving of atomic steps

    After [StartBackgroundSync] four threads of control exist: the caller
    (which may call [Shutdown]), [reconcile], [watchEndpoints] and, once
    started by the latter, [watch]. Each constructor of [step] is one atomic
    action of one of them; what the network answers is left open, so every
    answer is covered. Writes to the error log and sleeps change nothing
    that is modelled and appear as plain moves of the program counter. *)
Module Sched.

(** [Shutdown]: before [close(lb.quit)], blocked in [lb.wg.Wait()],
    returned. *)
Inductive Shutdown_pc := M_running | M_waiting | M_returned.

(** [reconcile]: at the [select], inside [syncEndpoints], returned. *)
Inductive reconcile_pc := R_select | R_sync | R_done.

(** [watchEndpoints]: at entry, blocked in [<-lb.quit], about to call
    [cancel()], blocked in [wg.Wait()], returned. *)
Inductive watchEndpoints_pc := WE_entry | WE_recv | WE_cancel | WE_wait | WE_done.

(** [watch]: not started, calling [get], after [get] returned ([ok] tells
    whether [err == nil]), at the top of the decoding loop, inside
    [decoder.Decode], returned. *)
Inductive watch_pc :=
  | W_absent | W_get | W_got (ok : bool) | W_check | W_decode | W_done.

Record State := mkState {
  lb : LoadBalancer;
  canceled : bool;        (* ctx.Err() == context.Canceled *)
  inner_wg : Z;           (* the WaitGroup local to watchEndpoints *)
  pc_Shutdown : Shutdown_pc;
  pc_reconcile : reconcile_pc;
  pc_watchEndpoints : watchEndpoints_pc;
  pc_watch : watch_pc
}.

Inductive step : State → State → Prop :=
  (* any caller: lb.Next() *)
  | step_Next l c i m r we w :
      step (mkState l c i m r we w) (mkState (Next l).2 c i m r we w)
  (* Shutdown: close(lb.quit) *)
  | step_Shutdown_close l c i r we w :
      step (mkState l c i M_running r we w)
           (mkState (set_quit true l) c i M_waiting r we w)
  (* Shutdown: lb.wg.Wait() returns once the counter is zero *)
  | step_Shutdown_return l c i r we w :
      wg l = 0 →
      step (mkState l c i M_waiting r we w) (mkState l c i M_returned r we w)
  (* reconcile: case <-time.After(lb.syncInterval) *)
  | step_reconcile_tick l c i m we w :
      step (mkState l c i m R_select we w) (mkState l c i m R_sync we w)
  (* reconcile: case <-lb.quit: return, then the deferred lb.wg.Done() *)
  | step_reconcile_quit l c i m we w :
      quit l = true →
      step (mkState l c i m R_select we w) (mkState (wg_Done l) c i m R_done we w)
  (* reconcile: syncEndpoints fails, the error is logged *)
  | step_reconcile_sync_err l c i m we w :
      step (mkState l c i m R_sync we w) (mkState l c i m R_select we w)
  (* reconcile: syncEndpoints decodes [eps] and calls update *)
  | step_reconcile_sync_ok eps l c i m we w :
      step (mkState l c i m R_sync we w)
           (mkState (update (formatEndpoints eps) l) c i m R_select we w)
  (* watchEndpoints: wg.Add(1); go lb.watch(ctx, &wg) *)
  | step_watchEndpoints_go l c i m r :
      step (mkState l c i m r WE_entry W_absent)
           (mkState l c (i + 1) m r WE_recv W_get)
  (* watchEndpoints: <-lb.quit *)
  | step_watchEndpoints_recv l c i m r w :
      quit l = true →
      step (mkState l c i m r WE_recv w) (mkState l c i m r WE_cancel w)
  (* watchEndpoints: cancel() *)
  | step_watchEndpoints_cancel l c i m r w :
      step (mkState l c i m r WE_cancel w) (mkState l true i m r WE_wait w)
  (* watchEndpoints: wg.Wait() returns, then the deferred lb.wg.Done() *)
  | step_watchEndpoints_done l c i m r w :
      i = 0 →
      step (mkState l c i m r WE_wait w) (mkState (wg_Done l) c i m r WE_done w)
  (* watch: r, err := lb.get(ctx, path) *)
  | step_watch_get ok l c i m r we :
      step (mkState l c i m r we W_get) (mkState l c i m r we (W_got ok))
  (* watch: ctx.Err() == context.Canceled after get: return, wg.Done() *)
  | step_watch_got_canceled ok l i m r we :
      step (mkState l true i m r we (W_got ok))
           (mkState l true (i - 1) m r we W_done)
  (* watch: err != nil: log, time.Sleep(lb.retryDelay), continue *)
  | step_watch_retry l i m r we :
      step (mkState l false i m r we (W_got false))
           (mkState l false i m r we W_get)
  (* watch: the stream is open, enter the decoding loop *)
  | step_watch_stream l i m r we :
      step (mkState l false i m r we (W_got true))
           (mkState l false i m r we W_check)
  (* watch: ctx.Err() == context.Canceled in the loop: r.Close(); return *)
  | step_watch_check_canceled l i m r we :
      step (mkState l true i m r we W_check)
           (mkState l true (i - 1) m r we W_done)
  (* watch: not cancelled, go on to decoder.Decode(&o) *)
  | step_watch_check_live l i m r we :
      step (mkState l false i m r we W_check)
           (mkState l false i m r we W_decode)
  (* watch: Decode fails: log, r.Close(), break *)
  | step_watch_decode_err l c i m r we :
      step (mkState l c i m r we W_decode) (mkState l c i m r we W_get)
  (* watch: o.Type == "ERROR": log, r.Close(), break *)
  | step_watch_event_error o l c i m r we :
      api.Type_ o = "ERROR" →
      step (mkState l c i m r we W_decode) (mkState l c i m r we W_get)
  (* watch: lb.update(formatEndpoints(o.Object)) *)
  | step_watch_event o l c i m r we :
      api.Type_ o ≠ "ERROR" →
      step (mkState l c i m r we W_decode)
           (mkState (update (formatEndpoints (api.Object o)) l) c i m r we W_check).

(** The state in which [StartBackgroundSync] leaves a balancer [l]: both
    goroutines at their entry, nothing cancelled. *)
Definition started (l : LoadBalancer) : State :=
  mkState l false 0 M_running R_select WE_entry W_absent.

(** States some schedule reaches. *)
Definition reachable (l : LoadBalancer) (s : State) : Prop :=
  rtc step (started l) s.

(** Both loops (and the nested watch task) have returned. *)
Definition loops_exited (s : State) : Prop :=
  pc_reconcile s = R_done ∧ pc_watchEndpoints s = WE_done ∧ pc_watch s = W_done.

(** The caller is past [Shutdown] and every background task has
    returned. *)
Definition quiescent (s : State) : Prop :=
  pc_Shutdown s = M_returned ∧ loops_exited s.

(** What each task contributes to the wait group that tracks it. *)
Definition live_reconcile (pc : reconcile_pc) : Z :=
  match pc with R_done => 0 | _ => 1 end.
Definition live_watchEndpoints (pc : watchEndpoints_pc) : Z :=
  match pc with WE_done => 0 | _ => 1 end.
Definition live_watch (pc : watch_pc) : Z :=
  match pc with W_absent | W_done => 0 | _ => 1 end.

(** The bookkeeping invariant of the two wait groups. *)
Definition invariant (s : State) : Prop :=
  wg (lb s) = live_reconcile (pc_reconcile s)
              + live_watchEndpoints (pc_watchEndpoints s)
  ∧ inner_wg s = live_watch (pc_watch s)
  ∧ (pc_watchEndpoints s = WE_entry ↔ pc_watch s = W_absent)
  ∧ (pc_watchEndpoints s = WE_done → pc_watch s = W_done)
  ∧ (pc_Shutdown s = M_returned → wg (lb s) = 0).

(** A schedule in which the caller shuts down at once: [Shutdown] closes
    the quit channel, [reconcile] returns, [watchEndpoints] starts [watch],
    sees the closed channel and cancels, [watch] comes back from [get] with
    an error, sees the cancellation and returns, [watchEndpoints] returns,
    and [Shutdown] returns. [shut_down l] is the state at its end. *)
Definition shut_down (l : LoadBalancer) : State :=
  mkState (wg_Done (wg_Done (set_quit true l))) true (0 + 1 - 1)
          M_returned R_done WE_done W_done.

End Sched.

(** ** Order of events in the life of the background tasks *)

(** [watchEndpoints] has seen the closed quit channel. *)
Definition past_quit (pc : Sched.watchEndpoints_pc) : bool :=
  match pc with
  | Sched.WE_cancel | Sched.WE_wait | Sched.WE_done => true
  | _ => false
  end.

(** [watchEndpoints] has called [cancel()]. *)
Definition past_cancel (pc : Sched.watchEndpoints_pc) : bool :=
  match pc with
  | Sched.WE_wait | Sched.WE_done => true
  | _ => false
  end.

(** The quit channel is closed exactly once [Shutdown] has begun; the
    context is cancelled exactly once [watchEndpoints] has called
    [cancel()], which it does only after the channel is closed; and a loop
    that has returned has seen the signal meant for it. *)
Definition lifecycle (s : Sched.State) : Prop :=
  quit (Sched.lb s) =
    match Sched.pc_Shutdown s with Sched.M_running => false | _ => true end
  ∧ Sched.canceled s = past_cancel (Sched.pc_watchEndpoints s)
  ∧ (past_quit (Sched.pc_watchEndpoints s) = true → quit (Sched.lb s) = true)
  ∧ (Sched.pc_reconcile s = Sched.R_done → quit (Sched.lb s) = true)
  ∧ (Sched.pc_watch s = Sched.W_done → Sched.canceled s = true).

(** ** Runs of the selector *)

(** [n] consecutive calls of [Next], with what each returned and the state
    at the end. *)
Fixpoint calls (n : nat) (lb : LoadBalancer)
  : list (exec (Endpoint * option error)) * LoadBalancer :=
  match n with
  | O => ([], lb)
  | S n =>
      let '(r, lb1) := Next lb in
      let '(rs, lb2) := calls n lb1 in
      (r :: rs, lb2)
  end.

(** A call that succeeded with backend [e]. *)
Definition ok (e : Endpoint) : exec (Endpoint * option error) :=
  Returns (e, None).

(** The index the next successful selection reads: the cursor, or 0 when
    the cursor is past the end. *)
Definition start_index (lb : LoadBalancer) : nat :=
  if decide (currentEndpoint lb >= len (endpoints lb)) then 0%nat
  else Z.to_nat (currentEndpoint lb).

(** The operations on the snapshot: a caller selects, a loop replaces the
    set. *)
Inductive snapshot_op := op_Next | op_update (eps : list Endpoint).

Definition run_op (lb : LoadBalancer) (o : snapshot_op) : LoadBalancer :=
  match o with
  | op_Next => (Next lb).2
  | op_update eps => update eps lb
  end.

(** A slice is never longer than the largest [int]. *)
Definition fits (eps : list Endpoint) : Prop := len eps ≤ GoInt.max_int.

Definition op_fits (o : snapshot_op) : Prop :=
  match o with
  | op_Next => True
  | op_update eps => fits eps
  end.

(** ** Statements about runs, as predicates on a state *)

(** A full round returns the backends exactly as the slice lists them. *)
Definition round_in_insertion_order (lb : LoadBalancer) : Prop :=
  (calls (length (endpoints lb)) lb).1 = ok <$> endpoints lb.

(** A call of [Next] leaves the cursor at another value than it found. *)
Definition cursor_changes (lb : LoadBalancer) : Prop :=
  currentEndpoint (Next lb).2 ≠ currentEndpoint lb.

(** The rendered value of the last port of [ps] that is named [k]. *)
Definition last_named (ps : list api.port) (k : string) : option string :=
  (λ p, FormatInt (api.Port p)) <$> last (filter (λ p, api.Name p = k) ps).

(** The map [m] holds exactly the named ports of [ps]: an entry [k ↦ v]
    for every port with non-empty name [k] and rendered value [v], and no
    other entry. *)
Definition exactly_named_ports (ps : list api.port) (m : gmap string string)
  : Prop :=
  ∀ k v, m !! k = Some v ↔
         ∃ p, p ∈ ps ∧ api.Name p ≠ "" ∧ api.Name p = k
              ∧ FormatInt (api.Port p) = v.

(** The request [get] builds for [path]. *)
Definition get_request (lb : LoadBalancer) (path : string) : Request :=
  mkRequest "GET" (url.mkURL "http" (apiAddr lb) path) "application/json, */*".

(** ** The reconciliation loop on given ticks *)

(** The body of [reconcile] run for [ticks] firings of the timer, with the
    errors it writes to the error log. *)
Fixpoint reconcile_run `{Environment} (ticks : nat) (w : World)
    (log : list error) : World * list error :=
  match ticks with
  | O => (w, log)
  | S n =>
      match syncEndpoints w with
      | (Some err, w') => reconcile_run n w' (log ++ [err])
      | (None, w') => reconcile_run n w' log
      end
  end.

(** ** The watcher on given connections

    The two loops of [watch], run on the connection attempts and the stream
    contents handed to them. *)

(** One turn of the decoding loop: whether [ctx.Err()] is
    [context.Canceled] when the turn starts, and what [decoder.Decode] then
    yields (an event, or the text of its error). *)
Record turn := mkTurn {
  canceled_at : bool;
  decoded : api.object + string
}.

(** How the decoding loop is left: by [return] (the context was cancelled)
    or by [break] (back to connecting). *)
Inductive loop_exit := exit_return | exit_break.

(** The inner [for] loop of [watch] on the turns of one connection. When
    the stream has nothing more to give, [Decode] fails with [io.EOF], which
    is the [break] of the error branch. *)
Fixpoint decode_loop (lb : LoadBalancer) (stream : list turn)
  : LoadBalancer * loop_exit :=
  match stream with
  | [] => (lb, exit_break)
  | t :: rest =>
      if canceled_at t then (lb, exit_return)
      else
        match decoded t with
        | inr err => (lb, exit_break)
        | inl o =>
            if decide (api.Type_ o = "ERROR") then (lb, exit_break)
            else decode_loop (update (formatEndpoints (api.Object o)) lb) rest
        end
  end.

(** One pass of the outer loop: whether the context is cancelled when [get]
    comes back, and what [get] returned (an open stream with its turns, or
    an error). *)
Record attempt := mkAttempt {
  canceled_after_get : bool;
  got : list turn + string
}.

(** The outer [for] loop of [watch] on a list of attempts. The flag tells
    whether [watch] has returned; [false] means it is about to connect
    again. *)
Fixpoint watch_run (lb : LoadBalancer) (attempts : list attempt)
  : LoadBalancer * bool :=
  match attempts with
  | [] => (lb, false)
  | a :: rest =>
      if canceled_after_get a then (lb, true)
      else
        match got a with
        | inr err => watch_run lb rest
        | inl stream =>
            match decode_loop lb stream with
            | (lb', exit_return) => (lb', true)
            | (lb', exit_break) => watch_run lb' rest
            end
        end
  end.

(** The events a decoding loop applies: the objects of the turns before the
    first cancellation, decoding error or [ERROR] event. *)
Fixpoint applied (stream : list turn) : list api.endpoints :=
  match stream with
  | [] => []
  | t :: rest =>
      if canceled_at t then []
      else
        match decoded t with
        | inr _ => []
        | inl o =>
            if decide (api.Type_ o = "ERROR") then []
            else api.Object o :: applied rest
        end
  end.

(** A turn at which the decoding loop is left. *)
Definition stops (t : turn) : Prop :=
  canceled_at t = true
  ∨ (∃ err, decoded t = inr err)
  ∨ (∃ o, decoded t = inl o ∧ api.Type_ o = "ERROR").

(** The turn in which an event [o] is decoded while the context is live. *)
Definition event (o : api.object) : turn := mkTurn false (inl o).

(** No cancellation is observed anywhere in the attempts. *)
Definition never_canceled (attempts : list attempt) : Prop :=
  Forall (λ a, canceled_after_get a = false
               ∧ match got a with
                 | inl stream => Forall (λ t, canceled_at t = false) stream
                 | inr _ => True
                 end) attempts.

(** ** The example program

    [main] of the example client, up to the point where it starts to pick
    backends: the configuration is built from the two flags, the balancer
    is created, synchronised once and the background loops are started.
    [log.Fatal(err)] ends the program. *)
Inductive startup :=
  | Fatal (err : error) (w : World)
  | Serving (w : World)
  | Crashed.

Definition main_startup `{Environment} (namespace_flag service_flag : string)
  : startup :=
  let config := {| APIAddr := ""; Client := None; ErrorLog := None;
                   Namespace := namespace_flag; RetryDelay := 0;
                   Service := service_flag; SyncInterval := 0 |} in
  match New 1%positive {[1%positive := config]} with
  | Panics => Crashed
  | Returns (lb, _) =>
      match SyncEndpoints (mkWorld lb [] []) with
      | (Some err, w) => Fatal err w
      | (None, w) =>
          match StartBackgroundSync w with
          | (Some err, w') => Fatal err w'
          | (None, w') => Serving w'
          end
      end
  end.

(** ** Concrete values used in examples *)

Definition ep (host : string) : Endpoint := mkEndpoint host "80" ∅.

(** The balancer [New] builds from [Config{Service: "web"}]. *)
Definition lb_web : LoadBalancer :=
  {| apiAddr := DefaultAPIAddr; client := Some DefaultClient;
     errorLog := Some (mkLogger Stderr "" LstdFlags);
     namespace := DefaultNamespace; retryDelay := defaultRetryDelay;
     service := "web"; syncInterval := defaultSyncInterval;
     quit := false; wg := 0; currentEndpoint := 0; endpoints := [] |}.

(** Three backends, and the balancer after one update and one selection. *)
Definition abc : list Endpoint := [ep "10.0.0.1"; ep "10.0.0.2"; ep "10.0.0.3"].
Definition lb_abc_1 : LoadBalancer := (Next (update abc lb_web)).2.

(** After a full round over three backends the set shrinks to two. *)
Definition lb_shrunk : LoadBalancer :=
  update [ep "10.0.0.1"; ep "10.0.0.2"] (calls 3 (update abc lb_web)).2.

(** The configurations [Config{Service: "web"}] and [Config{}]. *)
Definition cfg_web : Config :=
  {| APIAddr := ""; Client := None; ErrorLog := None; Namespace := "";
     RetryDelay := 0; Service := "web"; SyncInterval := 0 |}.
Definition cfg_zero : Config :=
  {| APIAddr := ""; Client := None; ErrorLog := None; Namespace := "";
     RetryDelay := 0; Service := ""; SyncInterval := 0 |}.

(** The balancer [New] builds from [Config{}]: no service name. *)
Definition lb_unnamed : LoadBalancer :=
  {| apiAddr := DefaultAPIAddr; client := Some DefaultClient;
     errorLog := Some (mkLogger Stderr "" LstdFlags);
     namespace := DefaultNamespace; retryDelay := defaultRetryDelay;
     service := ""; syncInterval := defaultSyncInterval;
     quit := false; wg := 0; currentEndpoint := 0; endpoints := [] |}.

(** The registry object of the transform example: two addresses, an
    unnamed port 80 and a port 9090 named metrics. *)
Definition registry_example : api.endpoints :=
  api.mkEndpoints
    [api.mkSubset [api.mkAddress "10.0.0.1"; api.mkAddress "10.0.0.2"]
                  [api.mkPort "" 80; api.mkPort "metrics" 9090]] "".

(** A registry object that lists the name http twice. *)
Definition registry_repeated_name : api.endpoints :=
  api.mkEndpoints
    [api.mkSubset [api.mkAddress "10.0.0.1"]
                  [api.mkPort "http" 80; api.mkPort "http" 8080]] "".

(** The JSON text [{"message":"not found","code":404}]. *)
Definition dquote : string := String (Ascii.ascii_of_nat 34) "".
Definition body_not_found : string :=
  "{" +:+ dquote +:+ "message" +:+ dquote +:+ ":" +:+ dquote +:+ "not found"
  +:+ dquote +:+ "," +:+ dquote +:+ "code" +:+ dquote +:+ ":404}".

(** A directory that answers every request with HTTP 404 and that body. *)
Definition env_not_found : Environment :=
  {| client_Do := λ _ _ _ _,
       DoResponse (mkResponse 404 (Readable body_not_found));
     URL_String := λ u, url.Scheme u +:+ "://" +:+ url.Host u +:+ url.Path u;
     json_Unmarshal_status := λ d,
       if decide (d = body_not_found)
       then inl (api.mkStatus "not found" 404)
       else inr "invalid character";
     json_Decode_endpoints := λ _, inr "unexpected end of JSON input" |}.

(** A directory that answers every request with HTTP 200 and a body that
    decodes to [registry_example]. *)
Definition env_ok : Environment :=
  {| client_Do := λ _ _ _ _, DoResponse (mkResponse 200 (Readable "{...}"));
     URL_String := λ u, url.Scheme u +:+ "://" +:+ url.Host u +:+ url.Path u;
     json_Unmarshal_status := λ _, inr "invalid character";
     json_Decode_endpoints := λ _, inl registry_example |}.

(** A directory that is unreachable. *)
Definition env_down : Environment :=
  {| client_Do := λ _ _ _ _, DoError "dial tcp 127.0.0.1:8001: connection refused";
     URL_String := λ u, url.Scheme u +:+ "://" +:+ url.Host u +:+ url.Path u;
     json_Unmarshal_status := λ _, inr "invalid character";
     json_Decode_endpoints := λ _, inr "unexpected end of JSON input" |}.

(* ================================================================= *)
(** * Properties *)

(** ** Machine integers and slices *)

Lemma GoInt_wrap_in_range z : GoInt.in_range z → GoInt.wrap z = z.
Proof.
  unfold GoInt.in_range, GoInt.wrap, GoInt.min_int, GoInt.max_int. intros Hz.
  rewrite Z.mod_small; lia.
Qed.

Lemma GoInt_wrap_range z : GoInt.in_range (GoInt.wrap z).
Proof.
  unfold GoInt.in_range, GoInt.wrap, GoInt.min_int, GoInt.max_int.
  pose proof (Z.mod_pos_bound (z + 2 ^ 63) (2 ^ 64)). lia.
Qed.

Lemma len_nil {A} : len (@nil A) = 0.
Proof. reflexivity. Qed.

Lemma len_nonneg {A} (s : list A) : 0 ≤ len s.
Proof. unfold len. lia. Qed.

Lemma len_pos_nonempty {A} (s : list A) : s ≠ [] ↔ 0 < len s.
Proof. unfold len. destruct s; simpl; split; intros; (congruence || lia). Qed.

Lemma slice_index_nat {A} (s : list A) (i : nat) :
  slice_index s (Z.of_nat i) = s !! i.
Proof.
  unfold slice_index, len. case_decide as Hi.
  - by rewrite Nat2Z.id.
  - symmetry. apply lookup_ge_None. lia.
Qed.

Lemma slice_index_neg {A} (s : list A) (i : Z) : i < 0 → slice_index s i = None.
Proof. intros Hi. unfold slice_index. case_decide; [lia | done]. Qed.

(** ** Steps of [Next] *)

Lemma Next_empty lb :
  endpoints lb = [] →
  Next lb = (Returns (Endpoint_zero, Some ErrNoEndpoints), lb).
Proof.
  intros Hnil. unfold Next. rewrite Hnil, len_nil.
  case_decide; [done | lia].
Qed.

(** With the cursor inside the slice, [Next] reads there and moves on. *)
Lemma Next_inside lb (c : nat) e :
  currentEndpoint lb = Z.of_nat c →
  endpoints lb !! c = Some e →
  len (endpoints lb) ≤ GoInt.max_int →
  Next lb = (ok e, set_currentEndpoint (Z.of_nat (S c)) lb).
Proof.
  intros Hc He Hfit. pose proof (lookup_lt_Some _ _ _ He) as Hlt.
  unfold Next. case_decide as H0; [unfold len in H0; lia |].
  case_decide as Hge; [unfold len in Hge; lia |].
  rewrite Hc, slice_index_nat, He. unfold ok. do 2 f_equal.
  rewrite GoInt_wrap_in_range; [f_equal; lia |].
  unfold GoInt.in_range, GoInt.min_int, len in *. lia.
Qed.

(** With the cursor at or past the end of a non-empty slice, [Next] reads
    index 0 and leaves the cursor at 1. *)
Lemma Next_past_end lb e rest :
  endpoints lb = e :: rest →
  len (endpoints lb) ≤ currentEndpoint lb →
  Next lb = (ok e, set_currentEndpoint 1 lb).
Proof.
  intros Heps Hge. unfold Next.
  case_decide as H0; [rewrite Heps in H0; unfold len in H0; simpl in H0; lia |].
  case_decide as Hc; [| lia].
  simpl. rewrite Heps. reflexivity.
Qed.

(** A negative cursor is the one case in which [Next] panics. *)
Lemma Next_negative_cursor lb :
  endpoints lb ≠ [] → currentEndpoint lb < 0 → Next lb = (Panics, lb).
Proof.
  intros Hne Hneg. apply len_pos_nonempty in Hne. unfold Next.
  case_decide; [lia |]. case_decide; [lia |].
  by rewrite slice_index_neg.
Qed.

(** The cursor never becomes negative: [New] starts it at 0 and neither
    [Next] nor [update] lowers it below 0. *)
Lemma Next_cursor_nonneg lb :
  len (endpoints lb) ≤ GoInt.max_int →
  0 ≤ currentEndpoint lb → 0 ≤ currentEndpoint (Next lb).2.
Proof.
  intros Hfit Hc. unfold Next. case_decide; [done |].
  case_decide as Hge; simpl.
  - destruct (slice_index _ _); simpl; [| lia].
    vm_compute. discriminate.
  - destruct (slice_index _ _) eqn:Hi; simpl; [| done].
    unfold slice_index in Hi. case_decide as Hr; [| done].
    rewrite GoInt_wrap_in_range; [lia |].
    unfold GoInt.in_range, GoInt.min_int. lia.
Qed.

Lemma Next_endpoints lb : endpoints (Next lb).2 = endpoints lb.
Proof.
  unfold Next. case_decide; [done |].
  case_decide; destruct (slice_index _ _); done.
Qed.

(** Hence no sequence of selections and replacements, started on the
    balancer [New] returns, ever reaches a negative cursor. *)
Lemma cursor_nonneg_run ops : ∀ lb,
  0 ≤ currentEndpoint lb →
  fits (endpoints lb) →
  Forall op_fits ops →
  0 ≤ currentEndpoint (foldl run_op lb ops).
Proof.
  induction ops as [| o ops IH]; intros lb Hc Hfit Hops; [done |].
  apply Forall_cons in Hops as [Ho Hops]. simpl. apply IH; [| | done].
  - destruct o; simpl; [by apply Next_cursor_nonneg | done].
  - destruct o; simpl; [by rewrite Next_endpoints | done].
Qed.

(** ** Runs of [Next] *)

Lemma calls_app n m lb :
  calls (n + m) lb =
  ((calls n lb).1 ++ (calls m (calls n lb).2).1, (calls m (calls n lb).2).2).
Proof.
  revert lb. induction n as [| n IH]; intros lb; simpl.
  - by destruct (calls m lb).
  - destruct (Next lb) as [r lb1]. rewrite IH.
    destruct (calls n lb1) as [rs lb2]. simpl.
    by destruct (calls m lb2).
Qed.

(** From a cursor [c] inside the slice, [n] calls that stay inside read the
    [n] backends from index [c] on. *)
Lemma calls_inside n : ∀ lb (c : nat),
  currentEndpoint lb = Z.of_nat c →
  (c + n ≤ length (endpoints lb))%nat →
  len (endpoints lb) ≤ GoInt.max_int →
  calls n lb = (ok <$> take n (drop c (endpoints lb)),
                set_currentEndpoint (Z.of_nat (c + n)) lb).
Proof.
  induction n as [| n IH]; intros lb c Hc Hn Hfit.
  - simpl. rewrite Nat.add_0_r, <- Hc. by destruct lb.
  - destruct (lookup_lt_is_Some_2 (endpoints lb) c) as [e He]; [lia |].
    simpl. rewrite (Next_inside lb c e Hc He Hfit).
    rewrite (IH (set_currentEndpoint (Z.of_nat (S c)) lb) (S c)); simpl;
      [| done | lia | done].
    rewrite (drop_S _ _ _ He). simpl. f_equal.
    unfold set_currentEndpoint. simpl. f_equal. lia.
Qed.

(** From a cursor at or past the end, [n] calls read the first [n]
    backends. *)
Lemma calls_past_end n lb :
  (1 ≤ n ≤ length (endpoints lb))%nat →
  len (endpoints lb) ≤ currentEndpoint lb →
  len (endpoints lb) ≤ GoInt.max_int →
  calls n lb = (ok <$> take n (endpoints lb),
                set_currentEndpoint (Z.of_nat n) lb).
Proof.
  intros [Hn1 Hn] Hge Hfit.
  destruct n as [| n]; [lia |].
  destruct (endpoints lb) as [| e rest] eqn:Heps; [simpl in Hn; lia |].
  simpl. rewrite (Next_past_end lb e rest Heps); [| by rewrite Heps].
  rewrite (calls_inside n (set_currentEndpoint 1 lb) 1); simpl;
    [| done | rewrite Heps; simpl in *; lia | by rewrite Heps].
  rewrite Heps. simpl. rewrite drop_0. by f_equal.
Qed.

(** One full round: [length (endpoints lb)] calls return the backends from
    [start_index lb] to the end and then those before it; the cursor ends
    where the next call reads [start_index lb] again. *)
Lemma calls_round lb :
  0 ≤ currentEndpoint lb →
  len (endpoints lb) ≤ GoInt.max_int →
  let k := start_index lb in
  (calls (length (endpoints lb)) lb).1 =
    ok <$> (drop k (endpoints lb) ++ take k (endpoints lb))
  ∧ (Next (calls (length (endpoints lb)) lb).2).1 = (Next lb).1.
Proof.
  intros Hc Hfit k. subst k. unfold start_index.
  destruct (endpoints lb) as [| e0 rest] eqn:Heps.
  { simpl. by rewrite drop_nil, take_nil. }
  rewrite <- Heps in *.
  assert (∃ N, length (endpoints lb) = N ∧ (1 ≤ N)%nat) as (N & HlenN & HN1).
  { rewrite Heps. simpl. eexists; split; [done | lia]. }
  assert (HN : len (endpoints lb) = Z.of_nat N) by (unfold len; lia).
  rewrite HlenN. case_decide as Hge.
  - (* the cursor is past the end *)
    rewrite (calls_past_end N lb); [| lia | lia | done].
    cbn [fst snd]. rewrite drop_0, take_0, app_nil_r. split.
    + f_equal. apply take_ge. lia.
    + rewrite (Next_past_end lb e0 rest Heps); [| lia].
      rewrite (Next_past_end _ e0 rest);
        cbn [endpoints currentEndpoint set_currentEndpoint]; [done | done | lia].
  - (* the cursor is inside the slice *)
    assert (∃ c : nat, currentEndpoint lb = Z.of_nat c ∧ (c < N)%nat)
      as (c & Hcur & HcN) by (exists (Z.to_nat (currentEndpoint lb)); lia).
    rewrite Hcur, Nat2Z.id.
    replace N with ((N - c) + c)%nat at 1 2 by lia.
    rewrite calls_app.
    rewrite (calls_inside (N - c) lb c Hcur); [| lia | done].
    cbn [fst snd].
    replace (take (N - c) (drop c (endpoints lb))) with (drop c (endpoints lb))
      by (symmetry; apply take_ge; rewrite length_drop; lia).
    destruct (lookup_lt_is_Some_2 (endpoints lb) c) as [e He]; [lia |].
    rewrite (Next_inside lb c e Hcur He Hfit). cbn [fst].
    destruct (decide (c = 0%nat)) as [-> | Hc0].
    + cbn [calls fst snd]. rewrite take_0, !app_nil_r. split; [done |].
      rewrite (Next_past_end _ e0 rest);
        cbn [endpoints currentEndpoint set_currentEndpoint]; [| done | lia].
      rewrite Heps in He. simpl in He. by simplify_eq.
    + rewrite (calls_past_end c);
        cbn [endpoints currentEndpoint set_currentEndpoint fst snd];
        [| lia | lia | done].
      split; [by rewrite fmap_app |].
      by rewrite (Next_inside _ c e);
        cbn [endpoints currentEndpoint set_currentEndpoint].
Qed.

#[local] Instance ok_inj : Inj (=) (=) ok.
Proof. intros e1 e2 Heq. unfold ok in Heq. by simplify_eq. Qed.

Lemma rotation_Permutation {A} (k : nat) (l : list A) :
  drop k l ++ take k l ≡ₚ l.
Proof. rewrite (comm (++)). by rewrite take_drop. Qed.

(** ** The selector *)

(** C4. Whenever the backend set is empty, [Next] returns the zero
    [Endpoint] together with [ErrNoEndpoints]; it does not panic, reads no
    slice element and leaves the state as it was. This holds for every
    value of the cursor. *)
Theorem Next_empty_set_NoBackends lb :
  endpoints lb = [] →
  Next lb = (Returns (Endpoint_zero, Some ErrNoEndpoints), lb)
  ∧ (Next lb).1 ≠ Panics.
Proof.
  intros Hnil. rewrite (Next_empty lb Hnil). split; [done | simpl; discriminate].
Qed.

Lemma Next_empty_set_NoBackends_witness :
  Next lb_web = (Returns (Endpoint_zero, Some ErrNoEndpoints), lb_web)
  ∧ (Next lb_web).1 ≠ Panics.
Proof. exact (Next_empty_set_NoBackends lb_web eq_refl). Defined.

(** C5. In a state with cursor [k] and a non-empty backend set of length
    [m ≤ k], the next call of [Next] returns the backend at index 0 of the
    set and leaves the cursor at 1; the slice access it makes is the
    in-range access to index 0, so it does not panic. *)
Theorem Next_after_shrink lb (k m : Z) :
  currentEndpoint lb = k →
  len (endpoints lb) = m →
  0 < m →
  m ≤ k →
  ∃ e0, slice_index (endpoints lb) 0 = Some e0
        ∧ Next lb = (Returns (e0, None), set_currentEndpoint 1 lb).
Proof.
  intros Hk Hm Hpos Hle.
  destruct (endpoints lb) as [| e0 rest] eqn:Heps.
  { rewrite len_nil in Hm. lia. }
  exists e0. split; [done |].
  apply (Next_past_end lb e0 rest Heps). rewrite Heps. lia.
Qed.

Lemma Next_after_shrink_witness :
  ∃ e0, slice_index (endpoints lb_shrunk) 0 = Some e0
        ∧ Next lb_shrunk = (Returns (e0, None), set_currentEndpoint 1 lb_shrunk).
Proof.
  apply (Next_after_shrink lb_shrunk 3 2); [reflexivity | reflexivity | lia | lia].
Defined.

(** C8. [update newSet] makes [newSet] the backend set and changes nothing
    else: the cursor keeps its value, whatever the length of the new set,
    and so do the configuration fields, the quit signal and the wait
    group. *)
Theorem update_frame (newSet : list Endpoint) lb :
  endpoints (update newSet lb) = newSet
  ∧ currentEndpoint (update newSet lb) = currentEndpoint lb
  ∧ apiAddr (update newSet lb) = apiAddr lb
  ∧ client (update newSet lb) = client lb
  ∧ errorLog (update newSet lb) = errorLog lb
  ∧ namespace (update newSet lb) = namespace lb
  ∧ retryDelay (update newSet lb) = retryDelay lb
  ∧ service (update newSet lb) = service lb
  ∧ syncInterval (update newSet lb) = syncInterval lb
  ∧ quit (update newSet lb) = quit lb
  ∧ wg (update newSet lb) = wg lb.
Proof. unfold update, set_endpoints. simpl. repeat split. Qed.

(** C6, as stated, fails: on the freshly built balancer, whose backend set
    is empty, [Next] returns [ErrNoEndpoints] and the cursor is 0 before and
    after the call. *)
Lemma Next_empty_cursor_unchanged :
  endpoints lb_web = []
  ∧ (Next lb_web).1 = Returns (Endpoint_zero, Some ErrNoEndpoints)
  ∧ currentEndpoint (Next lb_web).2 = currentEndpoint lb_web
  ∧ ¬ cursor_changes lb_web.
Proof.
  split; [reflexivity |]. split; [reflexivity |]. split; [reflexivity |].
  unfold cursor_changes. intros Hne. by apply Hne.
Qed.

(** C6, amended. [Next] writes the cursor exactly on the calls that select
    a backend. With an empty set the whole state, cursor included, is left
    as it was. With a non-empty set of length [n] and a cursor [c ≥ 0],
    only the cursor changes: it becomes [c + 1] when [c < n] and [1] when
    [c ≥ n]; this is a value other than [c] unless [c = n = 1]. *)
Theorem Next_cursor_effect lb :
  0 ≤ currentEndpoint lb →
  len (endpoints lb) ≤ GoInt.max_int →
  (endpoints lb = [] → (Next lb).2 = lb)
  ∧ (endpoints lb ≠ [] →
       (Next lb).2 =
         set_currentEndpoint
           (if decide (currentEndpoint lb >= len (endpoints lb)) then 1
            else currentEndpoint lb + 1) lb
       ∧ (currentEndpoint (Next lb).2 = currentEndpoint lb
          ↔ currentEndpoint lb = 1 ∧ len (endpoints lb) = 1)).
Proof.
  intros Hc Hfit. split.
  - intros Hnil. by rewrite (Next_empty lb Hnil).
  - intros Hne. destruct (endpoints lb) as [| e0 rest] eqn:Heps; [done |].
    rewrite <- Heps in *. pose proof (proj1 (len_pos_nonempty _) Hne) as Hpos.
    case_decide as Hge.
    + rewrite (Next_past_end lb e0 rest Heps); [| lia]. simpl.
      split; [done |]. lia.
    + destruct (lookup_lt_is_Some_2 (endpoints lb) (Z.to_nat (currentEndpoint lb)))
        as [e He]; [unfold len in *; lia |].
      rewrite (Next_inside lb (Z.to_nat (currentEndpoint lb)) e); [| lia | done | done].
      simpl. split; [f_equal; lia | lia].
Qed.

Lemma Next_cursor_effect_witness :
  (endpoints lb_abc_1 = [] → (Next lb_abc_1).2 = lb_abc_1)
  ∧ (endpoints lb_abc_1 ≠ [] →
       (Next lb_abc_1).2 =
         set_currentEndpoint
           (if decide (currentEndpoint lb_abc_1 >= len (endpoints lb_abc_1))
            then 1 else currentEndpoint lb_abc_1 + 1) lb_abc_1
       ∧ (currentEndpoint (Next lb_abc_1).2 = currentEndpoint lb_abc_1
          ↔ currentEndpoint lb_abc_1 = 1 ∧ len (endpoints lb_abc_1) = 1)).
Proof.
  apply (Next_cursor_effect lb_abc_1); [vm_compute; discriminate | vm_compute; discriminate].
Defined.

Lemma abc_NoDup : NoDup abc.
Proof. apply (bool_decide_unpack _). by vm_compute. Qed.

(** C1, as stated, fails: after one selection from the three backends
    [abc] the cursor is 1, and the next three calls return the second, the
    third and then the first backend, which is not the order of the set. *)
Lemma round_robin_not_insertion_order :
  NoDup (endpoints lb_abc_1)
  ∧ currentEndpoint lb_abc_1 = 1
  ∧ (calls 3 lb_abc_1).1 = [ok (ep "10.0.0.2"); ok (ep "10.0.0.3"); ok (ep "10.0.0.1")]
  ∧ ¬ round_in_insertion_order lb_abc_1.
Proof.
  split; [exact abc_NoDup |].
  split; [reflexivity |]. split; [reflexivity |].
  unfold round_in_insertion_order. intros Heq.
  change ([ok (ep "10.0.0.2"); ok (ep "10.0.0.3"); ok (ep "10.0.0.1")] =
          [ok (ep "10.0.0.1"); ok (ep "10.0.0.2"); ok (ep "10.0.0.3")]) in Heq.
  discriminate Heq.
Qed.

(** C1, amended. For a stable set of [N] distinct backends and any starting
    cursor [c ≥ 0], [N] consecutive calls of [Next] all succeed and return
    each backend exactly once, in cyclic insertion order: first the
    backends from index [k] to the end, then those before [k], where [k] is
    [c] if [c < N] and 0 otherwise. The order is the insertion order itself
    when the round starts at index 0 (cursor 0, or cursor at or past the
    end). The [(N+1)]th call returns the same backend as the first. *)
Theorem round_robin_cycle lb :
  NoDup (endpoints lb) →
  0 ≤ currentEndpoint lb →
  len (endpoints lb) ≤ GoInt.max_int →
  let N := length (endpoints lb) in
  let k := start_index lb in
  let results := (calls N lb).1 in
  results = ok <$> (drop k (endpoints lb) ++ take k (endpoints lb))
  ∧ results ≡ₚ ok <$> endpoints lb
  ∧ NoDup results
  ∧ (currentEndpoint lb = 0 ∨ len (endpoints lb) ≤ currentEndpoint lb →
     results = ok <$> endpoints lb)
  ∧ (Next (calls N lb).2).1 = (Next lb).1.
Proof.
  intros Hnd Hc Hfit N k results.
  destruct (calls_round lb Hc Hfit) as [Hres Hnext].
  fold N k results in Hres. fold N in Hnext.
  assert (Hperm : results ≡ₚ ok <$> endpoints lb).
  { rewrite Hres. apply fmap_Permutation, rotation_Permutation. }
  repeat split; [done | done | | | done].
  - rewrite Hperm. by apply (NoDup_fmap_2 ok).
  - intros Hstart. rewrite Hres.
    assert (Hk : k = 0%nat).
    { subst k. unfold start_index. case_decide; [done |]. lia. }
    by rewrite Hk, drop_0, take_0, app_nil_r.
Qed.

Lemma round_robin_cycle_witness :
  (calls 3 lb_abc_1).1 =
    ok <$> (drop 1 (endpoints lb_abc_1) ++ take 1 (endpoints lb_abc_1))
  ∧ (Next (calls 3 lb_abc_1).2).1 = (Next lb_abc_1).1.
Proof.
  assert (Hnd : NoDup (endpoints lb_abc_1)) by exact abc_NoDup.
  assert (H0 : 0 ≤ currentEndpoint lb_abc_1) by (vm_compute; discriminate).
  assert (Hfit : len (endpoints lb_abc_1) ≤ GoInt.max_int)
    by (vm_compute; discriminate).
  destruct (round_robin_cycle lb_abc_1 Hnd H0 Hfit) as (Hres & _ & _ & _ & Hnext).
  split; [exact Hres | exact Hnext].
Defined.

(** ** Construction *)

Lemma default_APIAddr_eq c :
  default_APIAddr c =
  mkConfig (if decide (APIAddr c = "") then DefaultAPIAddr else APIAddr c)
           (Client c) (ErrorLog c) (Namespace c) (RetryDelay c) (Service c)
           (SyncInterval c).
Proof. unfold default_APIAddr. destruct c. cbn. by case_decide. Qed.

Lemma default_Client_eq c :
  default_Client c =
  mkConfig (APIAddr c)
           (match Client c with None => Some DefaultClient | Some x => Some x end)
           (ErrorLog c) (Namespace c) (RetryDelay c) (Service c)
           (SyncInterval c).
Proof. unfold default_Client. destruct c as [? [] ? ? ? ? ?]; cbn; by case_decide. Qed.

Lemma default_ErrorLog_eq c :
  default_ErrorLog c =
  mkConfig (APIAddr c) (Client c)
           (match ErrorLog c with
            | None => Some (mkLogger Stderr "" LstdFlags)
            | Some l => Some l
            end)
           (Namespace c) (RetryDelay c) (Service c) (SyncInterval c).
Proof. unfold default_ErrorLog. destruct c as [? ? [] ? ? ? ?]; cbn; by case_decide. Qed.

Lemma default_Namespace_eq c :
  default_Namespace c =
  mkConfig (APIAddr c) (Client c) (ErrorLog c)
           (if decide (Namespace c = "") then DefaultNamespace else Namespace c)
           (RetryDelay c) (Service c) (SyncInterval c).
Proof. unfold default_Namespace. destruct c. cbn. by case_decide. Qed.

Lemma default_RetryDelay_eq c :
  default_RetryDelay c =
  mkConfig (APIAddr c) (Client c) (ErrorLog c) (Namespace c)
           (if decide (RetryDelay c ≤ 0) then defaultRetryDelay
            else RetryDelay c)
           (Service c) (SyncInterval c).
Proof. unfold default_RetryDelay. destruct c. cbn. by case_decide. Qed.

Lemma default_SyncInterval_eq c :
  default_SyncInterval c =
  mkConfig (APIAddr c) (Client c) (ErrorLog c) (Namespace c) (RetryDelay c)
           (Service c)
           (if decide (SyncInterval c ≤ 0) then defaultSyncInterval
            else SyncInterval c).
Proof. unfold default_SyncInterval. destruct c. cbn. by case_decide. Qed.

(** The six statements touch six different fields, so their combined
    effect is field-wise. *)
Lemma setDefaults_eq c :
  setDefaults c =
  mkConfig
    (if decide (APIAddr c = "") then DefaultAPIAddr else APIAddr c)
    (match Client c with None => Some DefaultClient | Some x => Some x end)
    (match ErrorLog c with
     | None => Some (mkLogger Stderr "" LstdFlags)
     | Some l => Some l
     end)
    (if decide (Namespace c = "") then DefaultNamespace else Namespace c)
    (if decide (RetryDelay c ≤ 0) then defaultRetryDelay else RetryDelay c)
    (Service c)
    (if decide (SyncInterval c ≤ 0) then defaultSyncInterval
     else SyncInterval c).
Proof.
  unfold setDefaults.
  rewrite default_APIAddr_eq.
  rewrite default_Client_eq;
    cbn [APIAddr Client ErrorLog Namespace RetryDelay Service SyncInterval].
  rewrite default_ErrorLog_eq;
    cbn [APIAddr Client ErrorLog Namespace RetryDelay Service SyncInterval].
  rewrite default_Namespace_eq;
    cbn [APIAddr Client ErrorLog Namespace RetryDelay Service SyncInterval].
  rewrite default_RetryDelay_eq;
    cbn [APIAddr Client ErrorLog Namespace RetryDelay Service SyncInterval].
  rewrite default_SyncInterval_eq;
    cbn [APIAddr Client ErrorLog Namespace RetryDelay Service SyncInterval].
  reflexivity.
Qed.

(** [lb_web] and [lb_unnamed] are what [New] returns for the two example
    configurations. *)
Lemma New_cfg_web (p : ptr) :
  New p {[p := cfg_web]} = Returns (lb_web, {[p := setDefaults cfg_web]}).
Proof. unfold New. rewrite lookup_singleton_eq, insert_singleton_eq. reflexivity. Qed.

Lemma New_cfg_zero (p : ptr) :
  New p {[p := cfg_zero]} = Returns (lb_unnamed, {[p := setDefaults cfg_zero]}).
Proof. unfold New. rewrite lookup_singleton_eq, insert_singleton_eq. reflexivity. Qed.

(** C10. [New config] writes the defaults into the caller's [Config]: the
    store afterwards holds, at the address passed in, the configuration in
    which every unset field ([APIAddr], [Client], [ErrorLog], [Namespace])
    has its default and [RetryDelay] and [SyncInterval] are replaced by
    their defaults whenever they are [≤ 0]; [Service] is as it was, other
    addresses are untouched, and the balancer is built from the defaulted
    values. *)
Theorem New_defaults_written_back (config : ptr) (h : heap) (c : Config) :
  h !! config = Some c →
  ∃ lb h',
    New config h = Returns (lb, h')
    ∧ (∀ q, q ≠ config → h' !! q = h !! q)
    ∧ ∃ c', h' !! config = Some c'
      ∧ APIAddr c' =
          (if decide (APIAddr c = "") then DefaultAPIAddr else APIAddr c)
      ∧ Client c' =
          match Client c with None => Some DefaultClient | Some x => Some x end
      ∧ ErrorLog c' =
          match ErrorLog c with
          | None => Some (mkLogger Stderr "" LstdFlags)
          | Some l => Some l
          end
      ∧ Namespace c' =
          (if decide (Namespace c = "") then DefaultNamespace else Namespace c)
      ∧ RetryDelay c' =
          (if decide (RetryDelay c ≤ 0) then defaultRetryDelay
           else RetryDelay c)
      ∧ SyncInterval c' =
          (if decide (SyncInterval c ≤ 0) then defaultSyncInterval
           else SyncInterval c)
      ∧ Service c' = Service c
      ∧ apiAddr lb = APIAddr c' ∧ client lb = Client c'
      ∧ errorLog lb = ErrorLog c' ∧ namespace lb = Namespace c'
      ∧ retryDelay lb = RetryDelay c' ∧ service lb = Service c'
      ∧ syncInterval lb = SyncInterval c'
      ∧ currentEndpoint lb = 0 ∧ endpoints lb = [].
Proof.
  intros Hc. unfold New. rewrite Hc. eexists _, _. split; [reflexivity |].
  split.
  - intros q Hq. by rewrite lookup_insert_ne.
  - exists (setDefaults c). rewrite lookup_insert_eq. split; [done |].
    rewrite (setDefaults_eq c).
    cbn [APIAddr Client ErrorLog Namespace RetryDelay Service SyncInterval
         apiAddr client errorLog namespace retryDelay service syncInterval
         currentEndpoint endpoints].
    repeat split; reflexivity.
Qed.

Lemma New_defaults_written_back_witness :
  ∃ lb h',
    New 1%positive {[1%positive := cfg_web]} = Returns (lb, h')
    ∧ ∃ c', h' !! 1%positive = Some c'
      ∧ APIAddr c' = DefaultAPIAddr
      ∧ RetryDelay c' = defaultRetryDelay
      ∧ SyncInterval c' = defaultSyncInterval.
Proof.
  destruct (New_defaults_written_back 1%positive {[1%positive := cfg_web]} cfg_web)
    as (lb & h' & HNew & _ & c' & Hc' & Haddr & _ & _ & _ & Hrd & Hsi & _).
  { apply lookup_singleton_eq. }
  exists lb, h'. split; [exact HNew |]. exists c'. split; [exact Hc' |].
  split; [exact Haddr |]. split; [exact Hrd | exact Hsi].
Defined.

(** ** Directory client and synchronisation *)

Section Directory.
Context `{Environment}.

(** Every call of [get] issues exactly one request. *)
Lemma get_sends_one lb ctx path sent0 :
  ∃ r, (get lb ctx path sent0).2 = sent0 ++ [r]
       ∧ Method r = "GET"
       ∧ url.Path (Request_URL r) = path
       ∧ url.Host (Request_URL r) = apiAddr lb.
Proof.
  eexists. unfold get. split.
  - destruct (client_Do _ _ _ _) as [resp | err]; [| reflexivity].
    case_decide; [| reflexivity].
    destruct (ReadAll _); [| reflexivity].
    destruct (json_Unmarshal_status _); reflexivity.
  - done.
Qed.

(** [syncEndpoints] always goes to the network. *)
Lemma syncEndpoints_sends_one w :
  length (sent (syncEndpoints w).2) = S (length (sent w)).
Proof.
  unfold syncEndpoints.
  destruct (get_sends_one (balancer w) ctx_TODO
              (endpointsPath (namespace (balancer w)) (service (balancer w)))
              (sent w)) as (r & Hsent & _).
  destruct (get _ _ _ _) as [[body | err] sent']; simpl in *; subst sent'.
  - destruct (json_Decode_endpoints body); simpl;
      rewrite length_app; simpl; lia.
  - simpl. rewrite length_app. simpl. lia.
Qed.

(** Any status other than 200 makes [get] fail with a [SyncError]. *)
Lemma get_not_200 lb ctx path sent0 code body :
  client_Do (client lb) ctx
    (mkRequest "GET" (url.mkURL "http" (apiAddr lb) path)
               "application/json, */*") sent0
    = DoResponse (mkResponse code body) →
  code ≠ 200 →
  (get lb ctx path sent0).1 =
    inr (SyncErr
      (let u := URL_String (url.mkURL "http" (apiAddr lb) path) in
       match body with
       | Unreadable err => mkSyncError u err code
       | Readable d =>
           match json_Unmarshal_status d with
           | inl s => mkSyncError u (api.status_Message s) (api.Code s)
           | inr err => mkSyncError u err code
           end
       end)).
Proof.
  intros HDo Hcode. unfold get. rewrite HDo. simpl.
  case_decide; [| done].
  destruct body as [d | err]; simpl; [| done].
  by destruct (json_Unmarshal_status d).
Qed.

(** C3. When the directory answers a GET with a status outside 200–299,
    [get] fails with a [SyncError] that carries the URL of the request;
    its message and code are those decoded from the [{message, code}]
    body, or, when the body cannot be read or cannot be decoded, the text
    of that failure and the HTTP status. For status 404 and the body
    [{"message":"not found","code":404}], which the decoder turns into
    message [not found] and code 404, the error has that message and
    that code. *)
Theorem get_remote_error lb ctx path sent0 code body :
  let r := mkRequest "GET" (url.mkURL "http" (apiAddr lb) path)
                     "application/json, */*" in
  client_Do (client lb) ctx r sent0 = DoResponse (mkResponse code body) →
  ¬ (200 ≤ code ≤ 299) →
  ∃ e, (get lb ctx path sent0).1 = inr (SyncErr e)
    ∧ URL e = URL_String (Request_URL r)
    ∧ match body with
      | Unreadable err => Message e = err ∧ Code e = code
      | Readable d =>
          match json_Unmarshal_status d with
          | inl s => Message e = api.status_Message s ∧ Code e = api.Code s
          | inr err => Message e = err ∧ Code e = code
          end
      end
    ∧ (code = 404 →
       body = Readable body_not_found →
       json_Unmarshal_status body_not_found
         = inl (api.mkStatus "not found" 404) →
       e = mkSyncError (URL_String (Request_URL r)) "not found" 404).
Proof.
  intros r HDo Hcode. eexists. split.
  { apply (get_not_200 lb ctx path sent0 code body HDo). lia. }
  split; [by destruct body as [d |]; simpl; [destruct (json_Unmarshal_status d) |] |].
  split; [by destruct body as [d |]; simpl; [destruct (json_Unmarshal_status d) |] |].
  intros -> -> Hdec. simpl. by rewrite Hdec.
Qed.

(** C7. With an empty service name both [SyncEndpoints] and
    [StartBackgroundSync] return [ErrMissingServiceName] and leave the
    world as it was: no request is sent, no goroutine is started, and
    the balancer (backend set, cursor, wait group) is unchanged. *)
Theorem missing_service_name w :
  service (balancer w) = "" →
  SyncEndpoints w = (Some ErrMissingServiceName, w)
  ∧ StartBackgroundSync w = (Some ErrMissingServiceName, w).
Proof.
  intros Hsvc. unfold SyncEndpoints, StartBackgroundSync.
  by rewrite !decide_True.
Qed.

(** With a service name, [SyncEndpoints] does send a request. *)
Lemma SyncEndpoints_named_sends w :
  service (balancer w) ≠ "" →
  length (sent (SyncEndpoints w).2) = S (length (sent w)).
Proof.
  intros Hsvc. unfold SyncEndpoints. rewrite decide_False; [| done].
  apply syncEndpoints_sends_one.
Qed.

End Directory.

(** With a service name, [StartBackgroundSync] starts the two loops and
    counts them in the wait group. *)
Lemma StartBackgroundSync_named w :
  service (balancer w) ≠ "" →
  StartBackgroundSync w =
    (None, mkWorld (set_wg (wg (balancer w) + 2) (balancer w)) (sent w)
                   (goroutines w ++ [go_watchEndpoints; go_reconcile])).
Proof.
  intros Hsvc. unfold StartBackgroundSync. rewrite decide_False; [| done].
  unfold wg_Add, set_wg. simpl. rewrite <- app_assoc. simpl.
  do 3 f_equal. lia.
Qed.

Lemma get_remote_error_witness :
  ∃ e, (@get env_not_found lb_web ctx_TODO
          (endpointsPath "default" "web") []).1 = inr (SyncErr e)
       ∧ Message e = "not found" ∧ Code e = 404.
Proof.
  destruct (@get_remote_error env_not_found lb_web ctx_TODO
              (endpointsPath "default" "web") [] 404 (Readable body_not_found))
    as (e & Hget & _ & _ & H404).
  { reflexivity. }
  { lia. }
  exists e. split; [exact Hget |].
  rewrite (H404 eq_refl eq_refl eq_refl). split; reflexivity.
Defined.

Lemma missing_service_name_witness :
  @SyncEndpoints env_not_found (mkWorld lb_unnamed [] [])
    = (Some ErrMissingServiceName, mkWorld lb_unnamed [] [])
  ∧ StartBackgroundSync (mkWorld lb_unnamed [] [])
    = (Some ErrMissingServiceName, mkWorld lb_unnamed [] []).
Proof.
  apply (@missing_service_name env_not_found (mkWorld lb_unnamed [] [])).
  reflexivity.
Defined.

(** ** The transform *)

Lemma named_ports_snoc ps p :
  named_ports (ps ++ [p]) =
  if decide (api.Name p ≠ "")
  then <[api.Name p := FormatInt (api.Port p)]> (named_ports ps)
  else named_ports ps.
Proof. unfold named_ports. by rewrite foldl_snoc. Qed.

(** The map built by the loop: no entry for the empty name; for any other
    name, the value of the last port listed under it. *)
Lemma named_ports_lookup ps k :
  named_ports ps !! k = if decide (k = "") then None else last_named ps k.
Proof.
  induction ps as [| p ps IH] using rev_ind.
  - unfold named_ports, last_named. simpl. rewrite lookup_empty.
    by case_decide.
  - rewrite named_ports_snoc. unfold last_named in *.
    rewrite filter_app, last_app.
    destruct (decide (api.Name p = k)) as [Hpk | Hpk].
    + rewrite (filter_cons_True (λ q, api.Name q = k) p [] Hpk). simpl.
      subst k. destruct (decide (api.Name p ≠ "")) as [Hp | Hp].
      * rewrite lookup_insert_eq. by rewrite decide_False.
      * apply dec_stable in Hp. rewrite IH.
        destruct (decide (api.Name p = "")); [done | congruence].
    + rewrite (filter_cons_False (λ q, api.Name q = k) p [] Hpk). simpl.
      destruct (decide (api.Name p ≠ "")); [by rewrite lookup_insert_ne | done].
Qed.

Lemma last_named_Some ps k v :
  last_named ps k = Some v →
  ∃ p, p ∈ ps ∧ api.Name p = k ∧ FormatInt (api.Port p) = v.
Proof.
  unfold last_named. intros Hl.
  destruct (last (filter _ ps)) as [p |] eqn:Hlast; [| done].
  simpl in Hl. simplify_eq.
  apply last_Some_elem_of, list_elem_of_filter in Hlast as [Hname Hin].
  by exists p.
Qed.

Lemma last_named_is_Some ps p :
  p ∈ ps → is_Some (last_named ps (api.Name p)).
Proof.
  intros Hin. unfold last_named. apply fmap_is_Some, last_is_Some.
  intros Hnil.
  by apply (filter_nil_not_elem_of (λ q, api.Name q = api.Name p) ps p).
Qed.

Lemma foldl_snoc_fmap {A B} (g : A → B) (l : list A) (acc : list B) :
  foldl (λ eps a, eps ++ [g a]) acc l = acc ++ (g <$> l).
Proof.
  revert acc. induction l as [| a l IH]; intros acc; simpl.
  - by rewrite app_nil_r.
  - by rewrite IH, <- app_assoc.
Qed.

(** The result for a registry object with at least one subset: one backend
    per address of the first subset, all with the same port and the same
    map. *)
Lemma formatEndpoints_first_subset s0 rest msg :
  formatEndpoints (api.mkEndpoints (s0 :: rest) msg) =
  (λ a, mkEndpoint (api.IP a)
          (default "" ((λ p, FormatInt (api.Port p)) <$> head (api.Ports s0)))
          (named_ports (api.Ports s0)))
  <$> api.Addresses s0.
Proof.
  unfold formatEndpoints. simpl. rewrite foldl_snoc_fmap. simpl.
  by destruct (api.Ports s0).
Qed.

(** When ports that share a name share the value, the map of the loop
    holds exactly the named ports. *)
Lemma named_ports_exact ps :
  (∀ p q, p ∈ ps → q ∈ ps → api.Name p = api.Name q → api.Port p = api.Port q) →
  exactly_named_ports ps (named_ports ps).
Proof.
  intros Hsame k v. rewrite named_ports_lookup. split.
  - case_decide as Hk; [done |]. intros Hl.
    destruct (last_named_Some ps k v Hl) as (p & Hin & Hname & Hv).
    exists p. repeat split; [done | congruence | done | done].
  - intros (p & Hin & Hne & Hname & Hv). subst k v.
    rewrite decide_False by done.
    destruct (last_named_is_Some ps p Hin) as [v Hv].
    rewrite Hv. f_equal.
    destruct (last_named_Some ps _ v Hv) as (q & Hq & Hqname & <-).
    by rewrite (Hsame q p Hq Hin Hqname).
Qed.

(** C2, as stated, fails: when two ports of the first subset carry the same
    name, the map has one entry for that name, with the value of the later
    port; the earlier named port is not in the map. *)
Lemma formatEndpoints_repeated_name :
  formatEndpoints registry_repeated_name =
    [mkEndpoint "10.0.0.1" "80" {["http" := "8080"]}]
  ∧ ¬ exactly_named_ports [api.mkPort "http" 80; api.mkPort "http" 8080]
        {["http" := "8080"]}.
Proof.
  split; [reflexivity |].
  intros Hexact.
  assert (Hin : ({["http" := "8080"]} : gmap string string) !! "http" = Some "80").
  { apply Hexact. exists (api.mkPort "http" 80).
    repeat split; [set_solver | done]. }
  rewrite lookup_singleton_eq in Hin. discriminate Hin.
Qed.

(** C2, amended. A registry object without subsets yields the empty backend
    set. Otherwise only the first subset is used: the result has one
    backend per address, in order; its [Host] is the address IP, its [Port]
    the decimal rendering of the first listed port (the empty string if
    there is none), and its named-port map has no entry for the empty name
    and maps every other name to the rendering of the last port listed
    under it. The keys are thus exactly the non-empty port names, and the
    map holds exactly the named ports whenever ports that share a name
    share the value (so whenever names are not repeated). The example
    object yields two backends with port 80 and the map
    [{metrics: 9090}]. *)
Theorem formatEndpoints_transform :
  (∀ msg, formatEndpoints (api.mkEndpoints [] msg) = [])
  ∧ (∀ s0 rest msg,
       let bs := formatEndpoints (api.mkEndpoints (s0 :: rest) msg) in
       let ps := api.Ports s0 in
       length bs = length (api.Addresses s0)
       ∧ ∀ i a, api.Addresses s0 !! i = Some a →
           ∃ b, bs !! i = Some b
             ∧ Host b = api.IP a
             ∧ Port b = default "" ((λ p, FormatInt (api.Port p)) <$> head ps)
             ∧ (∀ k, Ports b !! k =
                       if decide (k = "") then None else last_named ps k)
             ∧ (∀ k, k ∈ dom (Ports b) ↔
                       k ≠ "" ∧ ∃ p, p ∈ ps ∧ api.Name p = k)
             ∧ ((∀ p q, p ∈ ps → q ∈ ps →
                        api.Name p = api.Name q → api.Port p = api.Port q) →
                exactly_named_ports ps (Ports b)))
  ∧ formatEndpoints registry_example =
      [mkEndpoint "10.0.0.1" "80" {["metrics" := "9090"]};
       mkEndpoint "10.0.0.2" "80" {["metrics" := "9090"]}].
Proof.
  split; [done |]. split; [| reflexivity].
  intros s0 rest msg bs ps. subst bs.
  rewrite formatEndpoints_first_subset. split; [by rewrite length_fmap |].
  intros i a Ha. eexists. split.
  { rewrite list_lookup_fmap, Ha. reflexivity. }
  simpl. fold ps.
  split; [done |]. split; [done |].
  split; [apply named_ports_lookup |].
  split; [| apply named_ports_exact].
  intros k. rewrite elem_of_dom, named_ports_lookup. split.
  - case_decide as Hk; [by intros [? ?] |]. intros [v Hv]. split; [done |].
    destruct (last_named_Some ps k v Hv) as (p & ? & ? & ?). by exists p.
  - intros [Hk (p & Hin & Hname)]. rewrite decide_False by done.
    subst k. by apply last_named_is_Some.
Qed.

Lemma formatEndpoints_transform_witness :
  ∃ b, formatEndpoints registry_example !! 1%nat = Some b
       ∧ Host b = "10.0.0.2"
       ∧ Port b = "80"
       ∧ exactly_named_ports [api.mkPort "" 80; api.mkPort "metrics" 9090]
           (Ports b).
Proof.
  destruct formatEndpoints_transform as (_ & Hfirst & _).
  destruct (Hfirst
              (api.mkSubset [api.mkAddress "10.0.0.1"; api.mkAddress "10.0.0.2"]
                            [api.mkPort "" 80; api.mkPort "metrics" 9090])
              [] "") as [_ Haddr].
  destruct (Haddr 1%nat (api.mkAddress "10.0.0.2") eq_refl)
    as (b & Hb & Hhost & Hport & _ & _ & Hexact).
  exists b. split; [exact Hb |]. split; [exact Hhost |]. split; [exact Hport |].
  apply Hexact. intros p q Hp Hq Hname.
  apply elem_of_cons in Hp as [-> | Hp]; apply elem_of_cons in Hq as [-> | Hq];
    try reflexivity.
  - apply list_elem_of_singleton in Hq as ->. discriminate Hname.
  - apply list_elem_of_singleton in Hp as ->. discriminate Hname.
  - apply list_elem_of_singleton in Hp as ->.
    apply list_elem_of_singleton in Hq as ->. reflexivity.
Defined.

(** ** Shutdown *)

Lemma Next_wg l : wg (Next l).2 = wg l.
Proof.
  unfold Next. case_decide; [done |].
  case_decide; destruct (slice_index _ _); done.
Qed.

Lemma Sched_invariant_started l : wg l = 2 → Sched.invariant (Sched.started l).
Proof.
  intros Hwg. unfold Sched.invariant, Sched.started. simpl.
  repeat split; try done; lia.
Qed.

Lemma Sched_invariant_step s s' :
  Sched.step s s' → Sched.invariant s → Sched.invariant s'.
Proof.
  unfold Sched.invariant.
  intros Hstep (Hwg & Hin & Hentry & Hdone & Hret).
  destruct Hstep; simpl in *; rewrite ?Next_wg;
    repeat match goal with
           | x : Sched.reconcile_pc |- _ => destruct x
           | x : Sched.watchEndpoints_pc |- _ => destruct x
           | x : Sched.watch_pc |- _ => destruct x
           end;
    simpl in *; intuition (try congruence; try lia).
Qed.

Lemma Sched_invariant_reachable l s :
  wg l = 2 → Sched.reachable l s → Sched.invariant s.
Proof.
  intros Hwg. unfold Sched.reachable. revert s.
  apply (rtc_ind_r Sched.invariant).
  - by apply Sched_invariant_started.
  - intros s s' _ Hstep IH. by apply (Sched_invariant_step s s').
Qed.

(** Once [Shutdown] has returned, every background task has returned. *)
Lemma Sched_returned_exited s :
  Sched.invariant s → Sched.pc_Shutdown s = Sched.M_returned →
  Sched.loops_exited s.
Proof.
  unfold Sched.invariant, Sched.loops_exited.
  intros (Hwg & Hin & Hentry & Hdone & Hret) Hm.
  specialize (Hret Hm). rewrite Hret in Hwg.
  destruct (Sched.pc_reconcile s), (Sched.pc_watchEndpoints s);
    simpl in Hwg; try lia.
  split; [done |]. split; [done |]. by apply Hdone.
Qed.

(** In a quiescent state only callers of [Next] can move, and they do not
    touch the backend set. *)
Lemma Sched_quiescent_step s s' :
  Sched.quiescent s → Sched.step s s' →
  Sched.quiescent s' ∧ endpoints (Sched.lb s') = endpoints (Sched.lb s).
Proof.
  unfold Sched.quiescent, Sched.loops_exited.
  intros (Hm & Hr & Hwe & Hw) Hstep.
  destruct Hstep; simpl in *; try discriminate.
  by rewrite Next_endpoints.
Qed.

Lemma Sched_quiescent_rtc s s' :
  Sched.quiescent s → rtc Sched.step s s' →
  Sched.quiescent s' ∧ endpoints (Sched.lb s') = endpoints (Sched.lb s).
Proof.
  intros Hq Hrtc. induction Hrtc as [| s s1 s2 Hstep Hrtc IH]; [done |].
  destruct (Sched_quiescent_step s s1 Hq Hstep) as [Hq1 Heq].
  destruct (IH Hq1) as [Hq2 Heq2]. split; [done | congruence].
Qed.

(** The schedule described at [Sched.shut_down] is a run of the model. *)
Lemma Sched_shut_down_reachable l :
  wg l = 2 → Sched.reachable l (Sched.shut_down l).
Proof.
  intros Hwg. unfold Sched.reachable, Sched.started, Sched.shut_down.
  eapply rtc_l; [apply Sched.step_Shutdown_close |].
  eapply rtc_l; [by apply Sched.step_reconcile_quit |].
  eapply rtc_l; [apply Sched.step_watchEndpoints_go |].
  eapply rtc_l; [by apply Sched.step_watchEndpoints_recv |].
  eapply rtc_l; [apply Sched.step_watchEndpoints_cancel |].
  eapply rtc_l; [apply (Sched.step_watch_get false) |].
  eapply rtc_l; [apply Sched.step_watch_got_canceled |].
  eapply rtc_l; [by apply Sched.step_watchEndpoints_done |].
  eapply rtc_l; [apply Sched.step_Shutdown_return |].
  - unfold wg_Done, wg_Add. simpl. lia.
  - apply rtc_refl.
Qed.

(** C9. After [StartBackgroundSync] has started the two loops on a balancer
    whose wait group was idle, in every state that any schedule reaches and
    in which [Shutdown] has returned, [reconcile], [watchEndpoints] and the
    nested [watch] have all returned; and in no continuation of the
    schedule does the backend set change again. *)
Theorem Shutdown_quiescence l0 w1 s :
  wg l0 = 0 →
  StartBackgroundSync (mkWorld l0 [] []) = (None, w1) →
  Sched.reachable (balancer w1) s →
  Sched.pc_Shutdown s = Sched.M_returned →
  Sched.loops_exited s
  ∧ ∀ s', rtc Sched.step s s' →
          endpoints (Sched.lb s') = endpoints (Sched.lb s)
          ∧ Sched.loops_exited s'.
Proof.
  intros Hwg0 Hstart Hreach Hret.
  assert (Hwg : wg (balancer w1) = 2).
  { unfold StartBackgroundSync in Hstart. case_decide; [done |].
    simplify_eq. simpl. lia. }
  pose proof (Sched_invariant_reachable _ _ Hwg Hreach) as Hinv.
  pose proof (Sched_returned_exited s Hinv Hret) as Hexit.
  split; [done |]. intros s' Hrtc.
  destruct (Sched_quiescent_rtc s s' (conj Hret Hexit) Hrtc) as [[_ Hq] Heq].
  done.
Qed.

Lemma Shutdown_quiescence_witness :
  Sched.loops_exited (Sched.shut_down (set_wg 2 lb_web))
  ∧ ∀ s', rtc Sched.step (Sched.shut_down (set_wg 2 lb_web)) s' →
          endpoints (Sched.lb s') = []
          ∧ Sched.loops_exited s'.
Proof.
  apply (Shutdown_quiescence lb_web
           (mkWorld (set_wg 2 lb_web) [] [go_watchEndpoints; go_reconcile])
           (Sched.shut_down (set_wg 2 lb_web))).
  - reflexivity.
  - reflexivity.
  - apply Sched_shut_down_reachable. reflexivity.
  - reflexivity.
Defined.

(* ================================================================= *)
(** * Further properties of the code *)

(** ** More on the selector *)

Lemma Next_not_Panics lb :
  0 ≤ currentEndpoint lb → (Next lb).1 ≠ Panics.
Proof.
  intros Hc. unfold Next. case_decide as Hlen; [simpl; discriminate |].
  case_decide as Hge; simpl.
  - unfold slice_index. rewrite decide_True by lia.
    destruct (endpoints lb) as [| e rest]; [rewrite len_nil in Hlen; lia |].
    simpl. discriminate.
  - unfold slice_index. rewrite decide_True by lia.
    destruct (lookup_lt_is_Some_2 (endpoints lb) (Z.to_nat (currentEndpoint lb)))
      as [e He]; [unfold len in *; lia |].
    rewrite He. simpl. discriminate.
Qed.

Lemma start_index_lt lb :
  endpoints lb ≠ [] → 0 ≤ currentEndpoint lb →
  (start_index lb < length (endpoints lb))%nat.
Proof.
  intros Hne Hc. apply len_pos_nonempty in Hne. unfold start_index, len in *.
  case_decide; lia.
Qed.

(** What a selection on a non-empty set does, in terms of [start_index]. *)
Lemma Next_at_start_index lb :
  endpoints lb ≠ [] → 0 ≤ currentEndpoint lb → fits (endpoints lb) →
  ∃ e, endpoints lb !! start_index lb = Some e
       ∧ Next lb = (ok e, set_currentEndpoint (Z.of_nat (S (start_index lb))) lb).
Proof.
  intros Hne Hc Hfit.
  pose proof (start_index_lt lb Hne Hc) as Hlt.
  destruct (lookup_lt_is_Some_2 _ _ Hlt) as [e He].
  exists e. split; [done |]. revert Hlt He. unfold start_index.
  case_decide as Hge; intros Hlt He.
  - destruct (endpoints lb) as [| e0 rest] eqn:Heps; [done |].
    simpl in He. simplify_eq. rewrite <- Heps in *.
    apply (Next_past_end lb e rest Heps). lia.
  - apply Next_inside; [lia | done | done].
Qed.

Lemma start_index_Next lb :
  endpoints lb ≠ [] → 0 ≤ currentEndpoint lb → fits (endpoints lb) →
  start_index (Next lb).2 =
    (S (start_index lb) `mod` length (endpoints lb))%nat.
Proof.
  intros Hne Hc Hfit.
  pose proof (start_index_lt lb Hne Hc) as Hlt.
  destruct (Next_at_start_index lb Hne Hc Hfit) as (e & _ & ->).
  cbn [snd]. unfold start_index at 1.
  cbn [currentEndpoint endpoints set_currentEndpoint].
  set (k := start_index lb) in *. set (N := length (endpoints lb)) in *.
  unfold len. fold N. case_decide as Hge.
  - assert (S k = N) as -> by lia. by rewrite Nat.Div0.mod_same.
  - rewrite Nat.mod_small by lia. lia.
Qed.

Lemma calls_S n lb :
  calls (S n) lb =
  ((Next lb).1 :: (calls n (Next lb).2).1, (calls n (Next lb).2).2).
Proof.
  cbn [calls]. destruct (Next lb) as [r lb1]. cbn [fst snd].
  by destruct (calls n lb1).
Qed.

Lemma calls_endpoints n : ∀ lb, endpoints (calls n lb).2 = endpoints lb.
Proof.
  induction n as [| n IH]; intros lb; [done |]. simpl.
  destruct (Next lb) as [r lb1] eqn:HN.
  specialize (IH lb1). destruct (calls n lb1) as [rs lb2]. simpl in *.
  rewrite IH. change lb1 with (r, lb1).2. rewrite <- HN. apply Next_endpoints.
Qed.

Lemma calls_cursor_nonneg n : ∀ lb,
  fits (endpoints lb) → 0 ≤ currentEndpoint lb →
  0 ≤ currentEndpoint (calls n lb).2.
Proof.
  induction n as [| n IH]; intros lb Hfit Hc; [done |]. simpl.
  pose proof (Next_cursor_nonneg lb Hfit Hc) as Hc1.
  pose proof (Next_endpoints lb) as He1.
  destruct (Next lb) as [r lb1]. simpl in *.
  specialize (IH lb1). rewrite He1 in IH. specialize (IH Hfit Hc1).
  by destruct (calls n lb1).
Qed.

Lemma start_index_calls n : ∀ lb,
  endpoints lb ≠ [] → 0 ≤ currentEndpoint lb → fits (endpoints lb) →
  start_index (calls n lb).2 =
    ((start_index lb + n) `mod` length (endpoints lb))%nat.
Proof.
  induction n as [| n IH]; intros lb Hne Hc Hfit.
  - simpl. rewrite Nat.add_0_r, Nat.mod_small; [done |].
    by apply start_index_lt.
  - simpl.
    pose proof (Next_cursor_nonneg lb Hfit Hc) as Hc1.
    pose proof (Next_endpoints lb) as He1.
    pose proof (start_index_Next lb Hne Hc Hfit) as Hs1.
    destruct (Next lb) as [r lb1]. simpl in *.
    specialize (IH lb1). rewrite He1 in IH. specialize (IH Hne Hc1 Hfit).
    destruct (calls n lb1) as [rs lb2]. simpl in *.
    rewrite IH, Hs1, Nat.Div0.add_mod_idemp_l. f_equal. lia.
Qed.

Lemma Next_result lb :
  endpoints lb ≠ [] → 0 ≤ currentEndpoint lb →
  ∃ e, endpoints lb !! start_index lb = Some e ∧ (Next lb).1 = ok e.
Proof.
  intros Hne Hc.
  pose proof (start_index_lt lb Hne Hc) as Hlt.
  destruct (lookup_lt_is_Some_2 _ _ Hlt) as [e He].
  exists e. split; [done |].
  apply len_pos_nonempty in Hne. unfold start_index in He. unfold Next.
  destruct (decide (len (endpoints lb) ≤ 0)) as [Hle | _]; [lia |].
  destruct (decide (currentEndpoint lb >= len (endpoints lb))) as [Hge | Hge];
    cbn [fst snd endpoints currentEndpoint set_currentEndpoint].
  - change 0 with (Z.of_nat 0). by rewrite slice_index_nat, He.
  - replace (currentEndpoint lb) with (Z.of_nat (Z.to_nat (currentEndpoint lb)))
      at 1 by lia.
    by rewrite slice_index_nat, He.
Qed.

(** X1. [Next] writes nothing but the cursor: the backend set, every
    configuration field, the quit signal and the wait group are the same
    after the call, whether it succeeded, failed or panicked. *)
Theorem Next_frame lb :
  endpoints (Next lb).2 = endpoints lb
  ∧ apiAddr (Next lb).2 = apiAddr lb
  ∧ client (Next lb).2 = client lb
  ∧ errorLog (Next lb).2 = errorLog lb
  ∧ namespace (Next lb).2 = namespace lb
  ∧ retryDelay (Next lb).2 = retryDelay lb
  ∧ service (Next lb).2 = service lb
  ∧ syncInterval (Next lb).2 = syncInterval lb
  ∧ quit (Next lb).2 = quit lb
  ∧ wg (Next lb).2 = wg lb.
Proof.
  unfold Next. case_decide; [done |].
  case_decide; destruct (slice_index _ _); done.
Qed.

(** X2. With a cursor that is not negative, [Next] succeeds exactly when
    the backend set is not empty, and the backend it returns is an element
    of the set; otherwise the error is [ErrNoEndpoints] and the endpoint the
    zero value. *)
Theorem Next_succeeds_iff_nonempty lb :
  0 ≤ currentEndpoint lb →
  ((∃ e, (Next lb).1 = Returns (e, None)) ↔ endpoints lb ≠ [])
  ∧ (∀ e, (Next lb).1 = Returns (e, None) → e ∈ endpoints lb)
  ∧ (∀ e err, (Next lb).1 = Returns (e, Some err) →
              e = Endpoint_zero ∧ err = ErrNoEndpoints ∧ endpoints lb = []).
Proof.
  intros Hc. destruct (decide (endpoints lb = [])) as [Hnil | Hne].
  - rewrite (Next_empty lb Hnil). simpl. split; [| split].
    + split; [by intros [e ?] | done].
    + intros e ?. done.
    + intros e err ?. by simplify_eq.
  - destruct (Next_result lb Hne Hc) as (e & He & ->). unfold ok.
    split; [| split].
    + split; [done | by exists e].
    + intros e' ?. simplify_eq. by apply list_elem_of_lookup_2 in He.
    + intros e' err ?. done.
Qed.

Lemma Next_succeeds_iff_nonempty_witness :
  ∃ e, (Next lb_abc_1).1 = Returns (e, None) ∧ e ∈ endpoints lb_abc_1.
Proof.
  destruct (Next_succeeds_iff_nonempty lb_abc_1) as (Hiff & Hmem & _).
  { vm_compute. discriminate. }
  destruct (proj2 Hiff) as [e He]; [discriminate |].
  exists e. split; [exact He | exact (Hmem e He)].
Defined.

(** X3. After a selection on a non-empty set (cursor not negative) the
    cursor lies between 1 and the length of the set; the increment
    therefore never reaches the largest [int] and never wraps around. *)
Theorem Next_cursor_bounds lb :
  endpoints lb ≠ [] →
  0 ≤ currentEndpoint lb →
  fits (endpoints lb) →
  1 ≤ currentEndpoint (Next lb).2 ≤ len (endpoints lb)
  ∧ currentEndpoint (Next lb).2 = Z.of_nat (start_index lb) + 1.
Proof.
  intros Hne Hc Hfit.
  pose proof (start_index_lt lb Hne Hc) as Hlt.
  destruct (Next_at_start_index lb Hne Hc Hfit) as (e & _ & ->).
  simpl. unfold len. lia.
Qed.

Lemma Next_cursor_bounds_witness :
  1 ≤ currentEndpoint (Next lb_shrunk).2 ≤ len (endpoints lb_shrunk)
  ∧ currentEndpoint (Next lb_shrunk).2 = Z.of_nat (start_index lb_shrunk) + 1.
Proof.
  apply (Next_cursor_bounds lb_shrunk).
  - discriminate.
  - vm_compute. discriminate.
  - vm_compute. discriminate.
Defined.

(** X4. Starting from a cursor that is not negative (as [New] leaves it),
    after any sequence of selections and set replacements the next call of
    [Next] does not panic, and the cursor is still not negative. *)
Theorem Next_never_panics (ops : list snapshot_op) lb :
  0 ≤ currentEndpoint lb →
  fits (endpoints lb) →
  Forall op_fits ops →
  (Next (foldl run_op lb ops)).1 ≠ Panics
  ∧ 0 ≤ currentEndpoint (foldl run_op lb ops).
Proof.
  intros Hc Hfit Hops.
  pose proof (cursor_nonneg_run ops lb Hc Hfit Hops) as Hc'.
  split; [by apply Next_not_Panics | done].
Qed.

Lemma Next_never_panics_witness :
  (Next (foldl run_op lb_web
           [op_update abc; op_Next; op_Next; op_Next; op_update [ep "10.0.0.9"];
            op_Next; op_update []; op_Next])).1 ≠ Panics.
Proof.
  apply (Next_never_panics
           [op_update abc; op_Next; op_Next; op_Next; op_update [ep "10.0.0.9"];
            op_Next; op_update []; op_Next] lb_web).
  - vm_compute. discriminate.
  - vm_compute. discriminate.
  - repeat (apply Forall_cons; split; [vm_compute; try discriminate; exact I |]).
    apply Forall_nil_2.
Defined.

(** X5. On a stable non-empty set of [N] backends, the [(i+1)]th of any
    number of consecutive calls returns the backend at index
    [(k + i) mod N], where [k] is the index the first call reads. *)
Theorem calls_position (i : nat) : ∀ lb,
  endpoints lb ≠ [] →
  0 ≤ currentEndpoint lb →
  fits (endpoints lb) →
  (calls (S i) lb).1 !! i =
    ok <$> endpoints lb !! ((start_index lb + i) `mod` length (endpoints lb))%nat.
Proof.
  induction i as [| i IH]; intros lb Hne Hc Hfit.
  - destruct (Next_result lb Hne Hc) as (e & He & Hres).
    rewrite calls_S. cbn [fst lookup list_lookup]. rewrite Hres.
    rewrite Nat.add_0_r, Nat.mod_small by (by apply start_index_lt).
    by rewrite He.
  - pose proof (Next_cursor_nonneg lb Hfit Hc) as Hc1.
    pose proof (Next_endpoints lb) as He1.
    pose proof (start_index_Next lb Hne Hc Hfit) as Hs1.
    rewrite calls_S. cbn [fst].
    change (((Next lb).1 :: (calls (S i) (Next lb).2).1) !! S i)
      with ((calls (S i) (Next lb).2).1 !! i).
    rewrite (IH (Next lb).2) by (by rewrite ?He1).
    rewrite He1, Hs1, Nat.Div0.add_mod_idemp_l.
    do 3 f_equal. lia.
Qed.

Lemma calls_position_witness :
  (calls 8 lb_abc_1).1 !! 7%nat = ok <$> endpoints lb_abc_1 !! 2%nat.
Proof.
  apply (calls_position 7 lb_abc_1).
  - discriminate.
  - vm_compute. discriminate.
  - vm_compute. discriminate.
Defined.

Lemma filter_mjoin_replicate {A} (P : A → Prop) `{∀ x, Decision (P x)}
    (m : nat) (l : list A) :
  length (filter P (mjoin (replicate m l))) = (m * length (filter P l))%nat.
Proof.
  induction m as [| m IH]; [done |].
  simpl. rewrite filter_app, length_app, IH. done.
Qed.

Lemma filter_eq_not_in {A} `{EqDecision A} (x : A) (l : list A) :
  x ∉ l → filter (λ y, y = x) l = [].
Proof.
  induction l as [| y l IH]; intros Hnin; [done |].
  apply not_elem_of_cons in Hnin as [Hne Hnin].
  rewrite filter_cons_False by congruence. by apply IH.
Qed.

Lemma filter_eq_NoDup {A} `{EqDecision A} (x : A) (l : list A) :
  NoDup l → x ∈ l → length (filter (λ y, y = x) l) = 1%nat.
Proof.
  induction 1 as [| y l Hy Hnd IH]; intros Hin.
  - by apply elem_of_nil in Hin.
  - destruct (decide (y = x)) as [-> | Hne].
    + rewrite filter_cons_True by done. simpl.
      by rewrite filter_eq_not_in.
    + rewrite filter_cons_False by done. apply IH.
      apply elem_of_cons in Hin as [-> | Hin]; done.
Qed.

#[local] Instance exec_eq_dec {A} `{EqDecision A} : EqDecision (exec A).
Proof. solve_decision. Defined.

#[local] Instance SyncError_eq_dec : EqDecision SyncError.
Proof. solve_decision. Defined.

#[local] Instance error_eq_dec : EqDecision error.
Proof. solve_decision. Defined.

(** [m] full rounds are [m] copies of one round. *)
Lemma calls_rounds_eq (m : nat) : ∀ lb,
  0 ≤ currentEndpoint lb →
  fits (endpoints lb) →
  (calls (m * length (endpoints lb)) lb).1 =
    ok <$> mjoin (replicate m (drop (start_index lb) (endpoints lb)
                               ++ take (start_index lb) (endpoints lb))).
Proof.
  induction m as [| m IH]; intros lb Hc Hfit; [done |].
  destruct (decide (endpoints lb = [])) as [Hnil | Hne].
  { rewrite Hnil. simpl. rewrite Nat.mul_0_r, drop_nil, take_nil. simpl.
    clear. induction m; [done |]. done. }
  change (S m * length (endpoints lb))%nat
    with (length (endpoints lb) + m * length (endpoints lb))%nat.
  rewrite calls_app. cbn [fst].
  destruct (calls_round lb Hc Hfit) as [-> _].
  pose proof (calls_endpoints (length (endpoints lb)) lb) as He.
  pose proof (calls_cursor_nonneg (length (endpoints lb)) lb Hfit Hc) as Hc'.
  pose proof (start_index_calls (length (endpoints lb)) lb Hne Hc Hfit) as Hs.
  rewrite <- He at 3. rewrite IH by (by rewrite ?He).
  rewrite He, Hs.
  replace ((start_index lb + length (endpoints lb)) `mod` length (endpoints lb))%nat
    with (start_index lb).
  - symmetry.
    exact (fmap_app ok (drop (start_index lb) (endpoints lb)
                        ++ take (start_index lb) (endpoints lb))
             (mjoin (replicate m (drop (start_index lb) (endpoints lb)
                                  ++ take (start_index lb) (endpoints lb))))).
  - rewrite <- (Nat.mul_1_l (length (endpoints lb))) at 1.
    rewrite Nat.Div0.mod_add, Nat.mod_small; [done |].
    by apply start_index_lt.
Qed.

(** X6. Fairness over whole rounds: on a stable set of [N] distinct
    backends and from any cursor that is not negative, [m * N] consecutive
    calls return [m] times the same round, so every backend of the set is
    returned exactly [m] times. *)
Theorem calls_rounds_fair (m : nat) lb :
  NoDup (endpoints lb) →
  0 ≤ currentEndpoint lb →
  fits (endpoints lb) →
  let N := length (endpoints lb) in
  let k := start_index lb in
  (calls (m * N) lb).1 =
    ok <$> mjoin (replicate m (drop k (endpoints lb) ++ take k (endpoints lb)))
  ∧ ∀ e, e ∈ endpoints lb →
         length (filter (λ r, r = ok e) (calls (m * N) lb).1) = m.
Proof.
  intros Hnd Hc Hfit N k. pose proof (calls_rounds_eq m lb Hc Hfit) as Heq.
  fold N k in Heq. split; [done |]. intros e He. rewrite Heq.
  set (rot := drop k (endpoints lb) ++ take k (endpoints lb)).
  assert (Hjoin : ok <$> mjoin (replicate m rot) = mjoin (replicate m (ok <$> rot))).
  { clear. induction m as [| m IH]; [done |]. simpl. by rewrite fmap_app, IH. }
  rewrite Hjoin, filter_mjoin_replicate.
  rewrite (filter_eq_NoDup (ok e)); [lia | |].
  - apply (NoDup_fmap_2 ok). subst rot. by rewrite rotation_Permutation.
  - apply list_elem_of_fmap. exists e. split; [done |].
    subst rot. by rewrite rotation_Permutation.
Qed.

Lemma calls_rounds_fair_witness :
  length (filter (λ r, r = ok (ep "10.0.0.2")) (calls (4 * 3) lb_abc_1).1)
  = 4%nat.
Proof.
  destruct (calls_rounds_fair 4 lb_abc_1) as [_ Hcount].
  - exact abc_NoDup.
  - vm_compute. discriminate.
  - vm_compute. discriminate.
  - apply (Hcount (ep "10.0.0.2")).
    apply (list_elem_of_lookup_2 _ 1%nat). reflexivity.
Defined.

(** ** More on construction *)

Ltac unfold_defaults :=
  unfold DefaultAPIAddr, DefaultNamespace, defaultRetryDelay,
    defaultSyncInterval, Second in *.

(** X7. Applying the defaults twice is the same as applying them once:
    [setDefaults] never replaces a value it has itself put in. *)
Theorem setDefaults_idempotent c :
  setDefaults (setDefaults c) = setDefaults c.
Proof.
  rewrite (setDefaults_eq (setDefaults c)), (setDefaults_eq c).
  cbn [APIAddr Client ErrorLog Namespace RetryDelay Service SyncInterval].
  f_equal.
  - repeat case_decide; unfold_defaults; done.
  - by destruct (Client c).
  - by destruct (ErrorLog c).
  - repeat case_decide; unfold_defaults; done.
  - repeat case_decide; unfold_defaults; try done; lia.
  - repeat case_decide; unfold_defaults; try done; lia.
Qed.

(** X8. Whatever the caller's configuration holds, the balancer [New]
    returns is usable: it has an API address, an HTTP client, an error
    logger and a namespace, both durations are positive, the quit channel
    is open, the wait group idle, the backend set empty and the cursor 0.
    The service name alone is taken as given, empty or not. *)
Theorem New_usable (config : ptr) (h : heap) (c : Config) :
  h !! config = Some c →
  ∃ lb h',
    New config h = Returns (lb, h')
    ∧ apiAddr lb ≠ "" ∧ client lb ≠ None ∧ errorLog lb ≠ None
    ∧ namespace lb ≠ ""
    ∧ 0 < retryDelay lb ∧ 0 < syncInterval lb
    ∧ service lb = Service c
    ∧ quit lb = false ∧ wg lb = 0
    ∧ currentEndpoint lb = 0 ∧ endpoints lb = [].
Proof.
  intros Hc. unfold New. rewrite Hc. eexists _, _. split; [reflexivity |].
  rewrite (setDefaults_eq c).
  cbn [APIAddr Client ErrorLog Namespace RetryDelay Service SyncInterval
       apiAddr client errorLog namespace retryDelay service syncInterval
       quit wg currentEndpoint endpoints].
  split; [case_decide; unfold_defaults; done |].
  split; [by destruct (Client c) |].
  split; [by destruct (ErrorLog c) |].
  split; [case_decide; unfold_defaults; done |].
  split; [case_decide; unfold_defaults; lia |].
  split; [case_decide; unfold_defaults; lia |].
  done.
Qed.

Lemma New_usable_witness :
  ∃ lb h',
    New 1%positive {[1%positive := cfg_zero]} = Returns (lb, h')
    ∧ apiAddr lb ≠ "" ∧ client lb ≠ None ∧ 0 < retryDelay lb.
Proof.
  destruct (New_usable 1%positive {[1%positive := cfg_zero]} cfg_zero)
    as (lb & h' & HNew & Haddr & Hcl & _ & _ & Hrd & _).
  { apply lookup_singleton_eq. }
  exists lb, h'. split; [exact HNew |]. split; [exact Haddr |].
  split; [exact Hcl | exact Hrd].
Defined.

(** X9. A configuration in which every defaulted field is set (non-empty
    address and namespace, a client, a logger, positive durations) is left
    exactly as it is: [New] then writes nothing new into the caller's
    [Config] and copies the given values into the balancer. *)
Theorem New_keeps_complete_config (config : ptr) (h : heap) (c : Config) :
  h !! config = Some c →
  APIAddr c ≠ "" → Client c ≠ None → ErrorLog c ≠ None → Namespace c ≠ "" →
  0 < RetryDelay c → 0 < SyncInterval c →
  setDefaults c = c
  ∧ ∃ lb, New config h = Returns (lb, h)
          ∧ apiAddr lb = APIAddr c ∧ client lb = Client c
          ∧ errorLog lb = ErrorLog c ∧ namespace lb = Namespace c
          ∧ retryDelay lb = RetryDelay c ∧ service lb = Service c
          ∧ syncInterval lb = SyncInterval c.
Proof.
  intros Hc Haddr Hcl Hlog Hns Hrd Hsi.
  assert (Hid : setDefaults c = c).
  { rewrite setDefaults_eq. destruct c as [addr [cl |] [lg |] ns rd svc si];
      simpl in *; try done.
    by rewrite !decide_False by (done || lia). }
  split; [done |]. unfold New. rewrite Hc, Hid.
  eexists. split; [by rewrite insert_id |]. done.
Qed.

Lemma New_keeps_complete_config_witness :
  setDefaults (setDefaults cfg_web) = setDefaults cfg_web
  ∧ ∃ lb, New 1%positive {[1%positive := setDefaults cfg_web]}
          = Returns (lb, {[1%positive := setDefaults cfg_web]})
          ∧ apiAddr lb = DefaultAPIAddr.
Proof.
  destruct (New_keeps_complete_config 1%positive
              {[1%positive := setDefaults cfg_web]} (setDefaults cfg_web))
    as (Hid & lb & HNew & Haddr & _).
  - apply lookup_singleton_eq.
  - vm_compute. discriminate.
  - vm_compute. discriminate.
  - vm_compute. discriminate.
  - vm_compute. discriminate.
  - vm_compute. reflexivity.
  - vm_compute. reflexivity.
  - split; [exact Hid |]. exists lb. split; [exact HNew | exact Haddr].
Defined.

(** ** More on the directory client and on synchronisation *)

Section Sync.
Context `{Environment}.

Lemma get_sent lb ctx path sent0 :
  (get lb ctx path sent0).2 = sent0 ++ [get_request lb path].
Proof.
  unfold get, get_request.
  destruct (client_Do _ _ _ _) as [resp | err]; [| reflexivity].
  case_decide; [| reflexivity].
  destruct (ReadAll _); [| reflexivity].
  destruct (json_Unmarshal_status _); reflexivity.
Qed.

Lemma get_inl lb ctx path sent0 body :
  (get lb ctx path sent0).1 = inl body ↔
  client_Do (client lb) ctx (get_request lb path) sent0
    = DoResponse (mkResponse 200 body).
Proof.
  unfold get, get_request.
  destruct (client_Do _ _ _ _) as [[code b] | err]; simpl.
  - case_decide as Hcode.
    + split; [| intros ?; simplify_eq].
      destruct b as [d | e]; simpl; [| done].
      by destruct (json_Unmarshal_status d).
    + subst code. simpl. split; intros ?; by simplify_eq.
  - split; intros ?; by simplify_eq.
Qed.

Lemma get_inr_kind lb ctx path sent0 err :
  (get lb ctx path sent0).1 = inr err →
  (∃ text, err = errors_New text) ∨ (∃ e, err = SyncErr e).
Proof.
  unfold get. destruct (client_Do _ _ _ _) as [[code b] | e]; simpl.
  - case_decide; [| done].
    destruct b as [d | e]; simpl.
    + destruct (json_Unmarshal_status d); simpl; intros ?; simplify_eq; eauto.
    + intros ?; simplify_eq; eauto.
  - intros ?; simplify_eq; eauto.
Qed.

(** The ways [syncEndpoints] can end. *)
Lemma syncEndpoints_cases w :
  let lb := balancer w in
  let path := endpointsPath (namespace lb) (service lb) in
  let sent' := sent w ++ [get_request lb path] in
  (∃ err, syncEndpoints w = (Some err, mkWorld lb sent' (goroutines w))
          ∧ err ≠ ErrMissingServiceName ∧ err ≠ ErrNoEndpoints)
  ∨ (∃ body eps,
       client_Do (client lb) ctx_TODO (get_request lb path) (sent w)
         = DoResponse (mkResponse 200 body)
       ∧ json_Decode_endpoints body = inl eps
       ∧ syncEndpoints w =
           (None, mkWorld (update (formatEndpoints eps) lb) sent' (goroutines w))).
Proof.
  intros lb path sent'. unfold syncEndpoints. fold lb. fold path.
  pose proof (get_sent lb ctx_TODO path (sent w)) as Hsent.
  pose proof (get_inl lb ctx_TODO path (sent w)) as Hinl.
  pose proof (get_inr_kind lb ctx_TODO path (sent w)) as Hinr.
  destruct (get lb ctx_TODO path (sent w)) as [[body | err] s'];
    simpl in Hsent; subst s'.
  - destruct (json_Decode_endpoints body) as [eps | err] eqn:Hdec.
    + right. exists body, eps. split; [by apply Hinl |]. done.
    + left. exists (json_error err). done.
  - left. exists err. split; [done |].
    destruct (Hinr err eq_refl) as [[t ->] | [e ->]]; done.
Qed.

(** X10. [get] hands back a body exactly when the directory answered with
    status 200, and then it is the body of that response, unread. Every
    other status, 201 to 299 included, ends in a [SyncError]; a transport
    failure ends in a plain error whose text is that of the failure behind
    the prefix [endpoints: ]. [get] never produces one of the two
    sentinel errors of the package. *)
Theorem get_success_only_200 lb ctx path sent0 :
  (∀ body, (get lb ctx path sent0).1 = inl body ↔
           client_Do (client lb) ctx (get_request lb path) sent0
             = DoResponse (mkResponse 200 body))
  ∧ (∀ code body,
       client_Do (client lb) ctx (get_request lb path) sent0
         = DoResponse (mkResponse code body) →
       code ≠ 200 →
       ∃ e, (get lb ctx path sent0).1 = inr (SyncErr e))
  ∧ (∀ err,
       client_Do (client lb) ctx (get_request lb path) sent0 = DoError err →
       (get lb ctx path sent0).1 = inr (errors_New ("endpoints: " +:+ err)))
  ∧ (∀ err, (get lb ctx path sent0).1 = inr err →
            err ≠ ErrNoEndpoints ∧ err ≠ ErrMissingServiceName).
Proof.
  split; [intros body; apply get_inl |].
  split; [| split].
  - intros code body HDo Hcode. eexists.
    by apply (get_not_200 lb ctx path sent0 code body).
  - intros err HDo. unfold get. unfold get_request in HDo. by rewrite HDo.
  - intros err Herr.
    destruct (get_inr_kind lb ctx path sent0 err Herr) as [[t ->] | [e ->]];
      done.
Qed.

(** X11. Whatever the outcome, a call of [get] issues exactly one request
    and never repeats it: a GET over plain [http] to the configured API
    address, for the given path, with the header
    [Accept: application/json, */*]. *)
Theorem get_sends_one_request lb ctx path sent0 :
  ∃ r, (get lb ctx path sent0).2 = sent0 ++ [r]
       ∧ Method r = "GET"
       ∧ url.Scheme (Request_URL r) = "http"
       ∧ url.Host (Request_URL r) = apiAddr lb
       ∧ url.Path (Request_URL r) = path
       ∧ Accept r = "application/json, */*".
Proof. exists (get_request lb path). split; [apply get_sent | done]. Qed.

(** X12. A failed [SyncEndpoints] changes nothing in the balancer: the
    backend set that was there stays (no partial update), the cursor and
    the wait group are as before, and no goroutine is started. It sends at
    most one request (none when the service name is missing, which is the
    only case in which the error is [ErrMissingServiceName]) and does not
    retry. *)
Theorem SyncEndpoints_failure_keeps_state w err w' :
  SyncEndpoints w = (Some err, w') →
  balancer w' = balancer w
  ∧ goroutines w' = goroutines w
  ∧ (err = ErrMissingServiceName ↔ service (balancer w) = "")
  ∧ (service (balancer w) = "" → sent w' = sent w)
  ∧ (service (balancer w) ≠ "" →
     sent w' = sent w ++ [get_request (balancer w)
                            (endpointsPath (namespace (balancer w))
                                           (service (balancer w)))])
  ∧ err ≠ ErrNoEndpoints.
Proof.
  unfold SyncEndpoints. case_decide as Hsvc.
  - intros ?. simplify_eq. done.
  - destruct (syncEndpoints_cases w) as [(e & -> & Hne1 & Hne2) | (b & eps & _ & _ & ->)];
      intros ?; simplify_eq. simpl. done.
Qed.

(** X13. A successful [SyncEndpoints] means that the service name is set,
    that the directory answered the one request with status 200 and that
    the body decoded to a registry object; the backend set is then the
    transform of that object, and nothing else in the balancer (the cursor
    in particular) has changed. *)
Theorem SyncEndpoints_success w w' :
  SyncEndpoints w = (None, w') →
  let lb := balancer w in
  let r := get_request lb (endpointsPath (namespace lb) (service lb)) in
  service lb ≠ ""
  ∧ sent w' = sent w ++ [r]
  ∧ goroutines w' = goroutines w
  ∧ ∃ body eps,
      client_Do (client lb) ctx_TODO r (sent w) = DoResponse (mkResponse 200 body)
      ∧ json_Decode_endpoints body = inl eps
      ∧ balancer w' = update (formatEndpoints eps) lb
      ∧ endpoints (balancer w') = formatEndpoints eps
      ∧ currentEndpoint (balancer w') = currentEndpoint lb.
Proof.
  unfold SyncEndpoints. case_decide as Hsvc; [done |].
  destruct (syncEndpoints_cases w) as [(e & -> & _) | (b & eps & HDo & Hdec & ->)];
    intros ?; simplify_eq. simpl.
  split; [done |]. split; [done |]. split; [done |]. by exists b, eps.
Qed.

(** X14. Once [SyncEndpoints] has succeeded, [StartBackgroundSync] cannot
    fail: it returns no error, adds two to the wait group, starts
    [watchEndpoints] and then [reconcile], sends nothing itself and leaves
    the backend set and the cursor as the synchronisation left them. *)
Theorem StartBackgroundSync_after_sync w w1 :
  SyncEndpoints w = (None, w1) →
  ∃ w2, StartBackgroundSync w1 = (None, w2)
        ∧ wg (balancer w2) = wg (balancer w) + 2
        ∧ goroutines w2 = goroutines w ++ [go_watchEndpoints; go_reconcile]
        ∧ sent w2 = sent w1
        ∧ endpoints (balancer w2) = endpoints (balancer w1)
        ∧ currentEndpoint (balancer w2) = currentEndpoint (balancer w)
        ∧ quit (balancer w2) = quit (balancer w).
Proof.
  unfold SyncEndpoints. case_decide as Hsvc; [done |].
  destruct (syncEndpoints_cases w) as [(e & -> & _) | (b & eps & HDo & Hdec & ->)];
    intros ?; simplify_eq.
  rewrite StartBackgroundSync_named by done. eexists. split; [reflexivity |].
  simpl. done.
Qed.


End Sync.

Lemma get_success_only_200_witness :
  ∃ e, (@get env_not_found lb_web ctx_TODO (endpointsPath "default" "web") []).1
       = inr (SyncErr e).
Proof.
  destruct (@get_success_only_200 env_not_found lb_web ctx_TODO
              (endpointsPath "default" "web") []) as (_ & Hother & _ & _).
  apply (Hother 404 (Readable body_not_found)); [reflexivity | lia].
Defined.

Lemma SyncEndpoints_failure_keeps_state_witness :
  balancer (@SyncEndpoints env_down (mkWorld lb_abc_1 [] [])).2 = lb_abc_1
  ∧ length (sent (@SyncEndpoints env_down (mkWorld lb_abc_1 [] [])).2) = 1%nat.
Proof.
  destruct (@SyncEndpoints_failure_keeps_state env_down (mkWorld lb_abc_1 [] [])
              (errors_New
                 "endpoints: dial tcp 127.0.0.1:8001: connection refused")
              (@SyncEndpoints env_down (mkWorld lb_abc_1 [] [])).2)
    as (Hlb & _ & _ & _ & Hsent & _).
  { reflexivity. }
  split; [exact Hlb |]. rewrite Hsent; [reflexivity | discriminate].
Defined.

Lemma SyncEndpoints_success_witness :
  endpoints (balancer (@SyncEndpoints env_ok (mkWorld lb_abc_1 [] [])).2)
    = formatEndpoints registry_example
  ∧ currentEndpoint (balancer (@SyncEndpoints env_ok (mkWorld lb_abc_1 [] [])).2)
    = 1.
Proof.
  destruct (@SyncEndpoints_success env_ok (mkWorld lb_abc_1 [] [])
              (@SyncEndpoints env_ok (mkWorld lb_abc_1 [] [])).2)
    as (_ & _ & _ & body & eps & _ & Hdec & _ & Heps & Hcur).
  { reflexivity. }
  simpl in Hdec. injection Hdec as <-.
  split; [exact Heps | exact Hcur].
Defined.

Lemma StartBackgroundSync_after_sync_witness :
  ∃ w2, StartBackgroundSync (@SyncEndpoints env_ok (mkWorld lb_web [] [])).2
        = (None, w2)
        ∧ wg (balancer w2) = 2
        ∧ goroutines w2 = [go_watchEndpoints; go_reconcile].
Proof.
  destruct (@StartBackgroundSync_after_sync env_ok (mkWorld lb_web [] [])
              (@SyncEndpoints env_ok (mkWorld lb_web [] [])).2)
    as (w2 & Hstart & Hwg & Hgo & _).
  { reflexivity. }
  exists w2. split; [exact Hstart |]. split; [exact Hwg | exact Hgo].
Defined.


(** ** More on the transform *)

(** X16. Only the first subset of a registry object counts: further
    subsets, with all their addresses and ports, and the message field have
    no influence on the result. *)
Theorem formatEndpoints_first_subset_only s0 rest msg rest' msg' :
  formatEndpoints (api.mkEndpoints (s0 :: rest) msg)
  = formatEndpoints (api.mkEndpoints (s0 :: rest') msg').
Proof. by rewrite !formatEndpoints_first_subset. Qed.

(** X17. The backends of one result differ in their host only: all carry
    the same port and the same named-port map. Their hosts are the IPs of
    the addresses of the first subset, in the order listed and with
    repetitions kept. *)
Theorem formatEndpoints_uniform e :
  (∀ b1 b2, b1 ∈ formatEndpoints e → b2 ∈ formatEndpoints e →
            Port b1 = Port b2 ∧ Ports b1 = Ports b2)
  ∧ Host <$> formatEndpoints e =
      match api.Subsets e with
      | [] => []
      | s0 :: _ => api.IP <$> api.Addresses s0
      end.
Proof.
  destruct e as [[| s0 rest] msg]; simpl.
  - split; [| done]. intros b1 b2 Hb1. by apply elem_of_nil in Hb1.
  - rewrite formatEndpoints_first_subset. split.
    + intros b1 b2 Hb1 Hb2.
      apply list_elem_of_fmap in Hb1 as (a1 & -> & _).
      apply list_elem_of_fmap in Hb2 as (a2 & -> & _). done.
    + rewrite <- list_fmap_compose. done.
Qed.

Lemma formatEndpoints_uniform_witness :
  Port (mkEndpoint "10.0.0.1" "80" {["metrics" := "9090"]})
  = Port (mkEndpoint "10.0.0.2" "80" {["metrics" := "9090"]})
  ∧ Ports (mkEndpoint "10.0.0.1" "80" {["metrics" := "9090"]})
    = Ports (mkEndpoint "10.0.0.2" "80" {["metrics" := "9090"]}).
Proof.
  apply (proj1 (formatEndpoints_uniform registry_example)).
  - apply (list_elem_of_lookup_2 _ 0%nat). reflexivity.
  - apply (list_elem_of_lookup_2 _ 1%nat). reflexivity.
Defined.

(** ** The watcher *)

Lemma decode_loop_applied stream : ∀ lb,
  (decode_loop lb stream).1 =
    foldl (λ l e, update (formatEndpoints e) l) lb (applied stream).
Proof.
  induction stream as [| t rest IH]; intros lb; [done |].
  simpl. destruct (canceled_at t); [done |].
  destruct (decoded t) as [o | err]; [| done].
  case_decide; [done |]. simpl. apply IH.
Qed.

Lemma foldl_update_last (es : list api.endpoints) : ∀ lb,
  endpoints (foldl (λ l e, update (formatEndpoints e) l) lb es) =
    match last es with
    | Some e => formatEndpoints e
    | None => endpoints lb
    end.
Proof.
  induction es as [| e es IH]; intros lb; [done |].
  cbn [foldl]. rewrite IH, last_cons. by destruct (last es).
Qed.

Lemma foldl_update_rest (es : list api.endpoints) (x : list Endpoint) : ∀ lb,
  set_endpoints x (foldl (λ l e, update (formatEndpoints e) l) lb es)
  = set_endpoints x lb.
Proof.
  induction es as [| e es IH]; intros lb; [done |].
  cbn [foldl]. by rewrite IH.
Qed.

Lemma set_endpoints_same lb : set_endpoints (endpoints lb) lb = lb.
Proof. by destruct lb. Qed.

(** X18. On one connection the decoding loop applies the events in the
    order received, up to the first cancellation, decoding error or
    [ERROR] event, each as a full replacement. When it leaves, the backend
    set is therefore the transform of the last event applied (or the set
    it found, if none was applied), and nothing but the backend set has
    changed: the cursor is not reset by watch events. *)
Theorem decode_loop_last_event_wins lb stream :
  endpoints (decode_loop lb stream).1 =
    match last (applied stream) with
    | Some e => formatEndpoints e
    | None => endpoints lb
    end
  ∧ currentEndpoint (decode_loop lb stream).1 = currentEndpoint lb
  ∧ set_endpoints (endpoints lb) (decode_loop lb stream).1 = lb.
Proof.
  rewrite decode_loop_applied.
  pose proof (foldl_update_rest (applied stream) (endpoints lb) lb) as Hrest.
  rewrite set_endpoints_same in Hrest.
  split; [apply foldl_update_last |]. split; [| done].
  rewrite <- Hrest at 2. done.
Qed.

Lemma decode_loop_event lb o rest :
  api.Type_ o ≠ "ERROR" →
  decode_loop lb (event o :: rest) =
    decode_loop (update (formatEndpoints (api.Object o)) lb) rest.
Proof.
  intros Ho. unfold event. cbn [decode_loop canceled_at decoded].
  by rewrite decide_False.
Qed.

(** X19. A connection that delivers the events [o1 ... on, o], none of type
    [ERROR], and then ends, leaves the backend set as the transform of the
    last event [o]; the loop is left by [break], so [watch] connects
    again. *)
Theorem decode_loop_stream_of_events lb (os : list api.object) (o : api.object) :
  Forall (λ o', api.Type_ o' ≠ "ERROR") (os ++ [o]) →
  decode_loop lb (event <$> (os ++ [o])) =
    (set_endpoints (formatEndpoints (api.Object o)) lb, exit_break).
Proof.
  intros Hall. apply Forall_app in Hall as [Hos Ho].
  rewrite Forall_singleton in Ho. revert lb.
  induction Hos as [| o1 os Ho1 Hos IH]; intros lb; cbn [app fmap list_fmap].
  - rewrite decode_loop_event by exact Ho. done.
  - rewrite decode_loop_event by exact Ho1.
    specialize (IH (update (formatEndpoints (api.Object o1)) lb)).
    cbn [app fmap list_fmap] in IH. rewrite IH.
    by destruct lb.
Qed.

Lemma decode_loop_stream_of_events_witness :
  decode_loop lb_abc_1
    (event <$> ([api.mkObject registry_repeated_name "ADDED";
                 api.mkObject (api.mkEndpoints [] "") "DELETED"]
                ++ [api.mkObject registry_example "MODIFIED"]))
  = (set_endpoints (formatEndpoints registry_example) lb_abc_1, exit_break).
Proof.
  apply (decode_loop_stream_of_events lb_abc_1
           [api.mkObject registry_repeated_name "ADDED";
            api.mkObject (api.mkEndpoints [] "") "DELETED"]
           (api.mkObject registry_example "MODIFIED")).
  repeat (apply Forall_cons; split; [simpl; discriminate |]).
  apply Forall_nil_2.
Defined.

(** X20. Whatever follows, on the same connection, a turn at which the
    loop is left (cancellation seen, decoding error, [ERROR] event) is
    never applied. *)
Theorem decode_loop_stops_at_failure lb pre bad rest :
  stops bad →
  decode_loop lb (pre ++ bad :: rest) = decode_loop lb (pre ++ [bad]).
Proof.
  intros Hbad. revert lb. induction pre as [| t pre IH]; intros lb; simpl.
  - destruct Hbad as [Hc | [[err Herr] | (o & Ho & Hty)]].
    + by rewrite Hc.
    + rewrite Herr. by destruct (canceled_at bad).
    + rewrite Ho. destruct (canceled_at bad); [done |].
      by rewrite !decide_True.
  - destruct (canceled_at t); [done |].
    destruct (decoded t) as [o | err]; [| done].
    case_decide; [done |]. apply IH.
Qed.

Lemma decode_loop_stops_at_failure_witness :
  decode_loop lb_web
    ([event (api.mkObject registry_example "ADDED")]
     ++ mkTurn false (inr "unexpected EOF")
        :: [event (api.mkObject (api.mkEndpoints [] "") "MODIFIED")])
  = decode_loop lb_web
      ([event (api.mkObject registry_example "ADDED")]
       ++ [mkTurn false (inr "unexpected EOF")]).
Proof.
  apply (decode_loop_stops_at_failure lb_web).
  right. left. exists "unexpected EOF". reflexivity.
Defined.

(** X21. The type of an event is looked at only to tell [ERROR] from the
    rest: an event of any other type, [DELETED] included, replaces the
    backend set by the transform of the object it carries. *)
Theorem decode_loop_event_type_ignored lb o o' rest :
  api.Object o = api.Object o' →
  api.Type_ o ≠ "ERROR" →
  api.Type_ o' ≠ "ERROR" →
  decode_loop lb (event o :: rest) = decode_loop lb (event o' :: rest)
  ∧ decode_loop lb (event o :: rest) =
      decode_loop (update (formatEndpoints (api.Object o)) lb) rest.
Proof.
  intros Hobj Ho Ho'. rewrite !decode_loop_event by done.
  by rewrite Hobj.
Qed.

Lemma decode_loop_event_type_ignored_witness :
  decode_loop lb_web [event (api.mkObject registry_example "DELETED")]
  = decode_loop lb_web [event (api.mkObject registry_example "ADDED")]
  ∧ decode_loop lb_web [event (api.mkObject registry_example "DELETED")]
    = decode_loop (update (formatEndpoints registry_example) lb_web) [].
Proof.
  apply (decode_loop_event_type_ignored lb_web
           (api.mkObject registry_example "DELETED")
           (api.mkObject registry_example "ADDED") []);
    [reflexivity | discriminate | discriminate].
Defined.

Lemma decode_loop_return_canceled stream : ∀ lb,
  (decode_loop lb stream).2 = exit_return →
  ¬ Forall (λ t, canceled_at t = false) stream.
Proof.
  induction stream as [| t rest IH]; intros lb; simpl; [done |].
  destruct (canceled_at t) eqn:Hc.
  - intros _ Hall. apply Forall_cons in Hall as [Ht _]. congruence.
  - destruct (decoded t) as [o | err]; [| done].
    case_decide; [done |]. intros Hexit Hall.
    apply Forall_cons in Hall as [_ Hall]. by apply (IH _ Hexit).
Qed.

(** X22. [watch] returns only on cancellation: as long as no check of the
    context sees it cancelled, no failed connection, broken stream or
    [ERROR] event ends the watcher; it is connecting again after every one
    of them. *)
Theorem watch_returns_only_on_cancel attempts : ∀ lb,
  never_canceled attempts → (watch_run lb attempts).2 = false.
Proof.
  induction attempts as [| a rest IH]; intros lb Hnever; [done |].
  apply Forall_cons in Hnever as [[Ha Hstream] Hrest]. simpl. rewrite Ha.
  destruct (got a) as [stream | err]; [| by apply IH].
  destruct (decode_loop lb stream) as [lb' ex] eqn:Hloop.
  destruct ex; [| by apply IH].
  exfalso. apply (decode_loop_return_canceled stream lb); [| done].
  by rewrite Hloop.
Qed.

Lemma watch_returns_only_on_cancel_witness :
  (watch_run lb_web
     [mkAttempt false (inr "connection refused");
      mkAttempt false (inl [event (api.mkObject registry_example "ADDED");
                            mkTurn false (inr "unexpected EOF")]);
      mkAttempt false (inl [event (api.mkObject (api.mkEndpoints [] "boom")
                                                 "ERROR")])]).2 = false.
Proof.
  apply (watch_returns_only_on_cancel _ lb_web).
  repeat (apply Forall_cons; split;
          [split; [reflexivity |];
           simpl; repeat (apply Forall_cons; split; [reflexivity |]);
           try apply Forall_nil_2; try exact I |]).
  apply Forall_nil_2.
Defined.

(** ** More on the background tasks *)

Lemma Next_quit l : quit (Next l).2 = quit l.
Proof.
  unfold Next. case_decide; [done |].
  case_decide; destruct (slice_index _ _); done.
Qed.

Lemma lifecycle_step s s' : Sched.step s s' → lifecycle s → lifecycle s'.
Proof.
  unfold lifecycle.
  intros Hstep (Hq & Hc & Hpast & Hr & Hw).
  destruct Hstep; simpl in *; rewrite ?Next_quit;
    repeat match goal with
           | x : Sched.Shutdown_pc |- _ => destruct x
           | x : Sched.watchEndpoints_pc |- _ => destruct x
           end;
    simpl in *; intuition (try congruence).
Qed.

Lemma lifecycle_reachable l s :
  quit l = false → Sched.reachable l s → lifecycle s.
Proof.
  intros Hq. unfold Sched.reachable. revert s.
  apply (rtc_ind_r lifecycle).
  - unfold lifecycle, Sched.started. simpl. by rewrite Hq.
  - intros s s' _ Hstep IH. by apply (lifecycle_step s s').
Qed.

(** X23. No background task ends on its own: as long as the quit channel
    is open, [Shutdown] has not begun, [reconcile] is in its loop,
    [watchEndpoints] has not gone past waiting for the channel, the context
    is not cancelled and [watch] has not returned, whatever errors the
    network produced. *)
Theorem loops_run_until_Shutdown l s :
  quit l = false →
  Sched.reachable l s →
  quit (Sched.lb s) = false →
  Sched.pc_Shutdown s = Sched.M_running
  ∧ Sched.pc_reconcile s ≠ Sched.R_done
  ∧ (Sched.pc_watchEndpoints s = Sched.WE_entry
     ∨ Sched.pc_watchEndpoints s = Sched.WE_recv)
  ∧ Sched.pc_watch s ≠ Sched.W_done
  ∧ Sched.canceled s = false.
Proof.
  intros Hq0 Hreach Hq.
  destruct (lifecycle_reachable l s Hq0 Hreach) as (Hm & Hc & Hpast & Hr & Hw).
  rewrite Hq in *.
  assert (Hwe : Sched.pc_watchEndpoints s = Sched.WE_entry
                ∨ Sched.pc_watchEndpoints s = Sched.WE_recv).
  { destruct (Sched.pc_watchEndpoints s); simpl in *; auto;
      by specialize (Hpast eq_refl). }
  assert (Hcan : Sched.canceled s = false).
  { rewrite Hc. by destruct Hwe as [-> | ->]. }
  split; [by destruct (Sched.pc_Shutdown s) |].
  split; [intros Hdone; by specialize (Hr Hdone) |].
  split; [done |]. split; [| done].
  intros Hdone. specialize (Hw Hdone). congruence.
Qed.

Lemma loops_run_until_Shutdown_witness :
  Sched.pc_reconcile
    (Sched.mkState (update (formatEndpoints registry_example) (set_wg 2 lb_web))
                   false 1 Sched.M_running Sched.R_select Sched.WE_recv
                   Sched.W_get) ≠ Sched.R_done.
Proof.
  destruct (loops_run_until_Shutdown (set_wg 2 lb_web)
              (Sched.mkState
                 (update (formatEndpoints registry_example) (set_wg 2 lb_web))
                 false 1 Sched.M_running Sched.R_select Sched.WE_recv
                 Sched.W_get))
    as (_ & Hr & _).
  - reflexivity.
  - unfold Sched.reachable, Sched.started.
    eapply rtc_l; [apply Sched.step_watchEndpoints_go |].
    eapply rtc_l; [apply (Sched.step_watch_get false) |].
    eapply rtc_l; [apply Sched.step_watch_retry |].
    eapply rtc_l; [apply Sched.step_reconcile_tick |].
    eapply rtc_l; [apply (Sched.step_reconcile_sync_ok registry_example) |].
    apply rtc_refl.
  - reflexivity.
  - exact Hr.
Defined.

(** X24. The two wait groups never go below zero along any schedule, so
    no [Done] panics: the counter of the balancer stays between 0 and 2 and
    counts the tasks among [reconcile] and [watchEndpoints] that have not
    returned; the counter local to [watchEndpoints] stays between 0 and 1
    and is 1 exactly while [watch] is running. *)
Theorem wait_groups_bounded l s :
  wg l = 2 →
  Sched.reachable l s →
  0 ≤ wg (Sched.lb s) ≤ 2
  ∧ 0 ≤ Sched.inner_wg s ≤ 1
  ∧ wg (Sched.lb s) =
      Sched.live_reconcile (Sched.pc_reconcile s)
      + Sched.live_watchEndpoints (Sched.pc_watchEndpoints s)
  ∧ Sched.inner_wg s = Sched.live_watch (Sched.pc_watch s).
Proof.
  intros Hwg Hreach.
  destruct (Sched_invariant_reachable l s Hwg Hreach) as (Hw & Hi & _).
  rewrite Hw, Hi.
  destruct (Sched.pc_reconcile s), (Sched.pc_watchEndpoints s),
    (Sched.pc_watch s); simpl; lia.
Qed.

Lemma wait_groups_bounded_witness :
  0 ≤ wg (Sched.lb (Sched.shut_down (set_wg 2 lb_web))) ≤ 2
  ∧ 0 ≤ Sched.inner_wg (Sched.shut_down (set_wg 2 lb_web)) ≤ 1.
Proof.
  destruct (wait_groups_bounded (set_wg 2 lb_web)
              (Sched.shut_down (set_wg 2 lb_web))) as (Hw & Hi & _).
  - reflexivity.
  - apply Sched_shut_down_reachable. reflexivity.
  - split; [exact Hw | exact Hi].
Defined.

Lemma Next_state lb : ∃ c, (Next lb).2 = set_currentEndpoint c lb.
Proof.
  unfold Next. case_decide.
  - exists (currentEndpoint lb). by destruct lb.
  - case_decide; destruct (slice_index _ _); simpl; eauto.
    exists (currentEndpoint lb). by destruct lb.
Qed.

(** X25. The configuration of a balancer is fixed for its lifetime: along
    every schedule of callers and background tasks the API address, the
    client, the logger, the namespace, the service name and both durations
    keep the values [New] gave them. *)
Theorem configuration_immutable l s :
  Sched.reachable l s →
  apiAddr (Sched.lb s) = apiAddr l
  ∧ client (Sched.lb s) = client l
  ∧ errorLog (Sched.lb s) = errorLog l
  ∧ namespace (Sched.lb s) = namespace l
  ∧ retryDelay (Sched.lb s) = retryDelay l
  ∧ service (Sched.lb s) = service l
  ∧ syncInterval (Sched.lb s) = syncInterval l.
Proof.
  unfold Sched.reachable. revert s.
  apply (rtc_ind_r (λ s, apiAddr (Sched.lb s) = apiAddr l
                         ∧ client (Sched.lb s) = client l
                         ∧ errorLog (Sched.lb s) = errorLog l
                         ∧ namespace (Sched.lb s) = namespace l
                         ∧ retryDelay (Sched.lb s) = retryDelay l
                         ∧ service (Sched.lb s) = service l
                         ∧ syncInterval (Sched.lb s) = syncInterval l)).
  - done.
  - intros s s' _ Hstep IH. destruct Hstep; simpl in *; try done.
    destruct (Next_state l0) as [c0 ->]. done.
Qed.

Lemma configuration_immutable_witness :
  service (Sched.lb (Sched.shut_down (set_wg 2 lb_web))) = "web".
Proof.
  destruct (configuration_immutable (set_wg 2 lb_web)
              (Sched.shut_down (set_wg 2 lb_web))) as (_ & _ & _ & _ & _ & Hs & _).
  - apply Sched_shut_down_reachable. reflexivity.
  - exact Hs.
Defined.

(** X26. The backend set is only ever replaced as a whole: along every
    schedule it is either the set the balancer started with or the
    transform of one registry object, never a mixture of two. *)
Theorem snapshot_is_whole l s :
  Sched.reachable l s →
  endpoints (Sched.lb s) = endpoints l
  ∨ ∃ e, endpoints (Sched.lb s) = formatEndpoints e.
Proof.
  unfold Sched.reachable. revert s.
  apply (rtc_ind_r (λ s, endpoints (Sched.lb s) = endpoints l
                         ∨ ∃ e, endpoints (Sched.lb s) = formatEndpoints e)).
  - by left.
  - intros s s' _ Hstep IH. destruct Hstep; simpl in *; try done.
    + destruct (Next_state l0) as [c0 ->]. done.
    + right. by exists eps.
    + right. by exists (api.Object o).
Qed.

Lemma snapshot_is_whole_witness :
  endpoints (Sched.lb (Sched.shut_down (set_wg 2 lb_web))) = []
  ∨ ∃ e, endpoints (Sched.lb (Sched.shut_down (set_wg 2 lb_web)))
         = formatEndpoints e.
Proof.
  apply (snapshot_is_whole (set_wg 2 lb_web)).
  apply Sched_shut_down_reachable. reflexivity.
Defined.

(** Phases of a shutdown, each a schedule from an arbitrary state. *)

Lemma phase_close s :
  ∃ s', rtc Sched.step s s' ∧ Sched.pc_Shutdown s' ≠ Sched.M_running.
Proof.
  destruct s as [l c i m r we w]. destruct m.
  - eexists. split; [apply rtc_once, Sched.step_Shutdown_close | done].
  - eexists. split; [apply rtc_refl | done].
  - eexists. split; [apply rtc_refl | done].
Qed.

Lemma phase_reconcile s :
  quit (Sched.lb s) = true →
  ∃ s', rtc Sched.step s s' ∧ Sched.pc_reconcile s' = Sched.R_done.
Proof.
  destruct s as [l c i m r we w]. simpl. intros Hq. destruct r.
  - eexists. split; [by apply rtc_once, Sched.step_reconcile_quit | done].
  - eexists. split;
      [eapply rtc_l; [apply Sched.step_reconcile_sync_err |];
      by apply rtc_once, Sched.step_reconcile_quit
      | done].
  - eexists. split; [apply rtc_refl | done].
Qed.

Lemma phase_cancel s :
  quit (Sched.lb s) = true →
  (Sched.pc_watchEndpoints s = Sched.WE_entry → Sched.pc_watch s = Sched.W_absent) →
  ∃ s', rtc Sched.step s s'
        ∧ past_cancel (Sched.pc_watchEndpoints s') = true
        ∧ Sched.pc_reconcile s' = Sched.pc_reconcile s.
Proof.
  destruct s as [l c i m r we w]. simpl. intros Hq Hentry. destruct we.
  - rewrite (Hentry eq_refl). eexists. split;
      [eapply rtc_l; [apply Sched.step_watchEndpoints_go |];
       eapply rtc_l; [by apply Sched.step_watchEndpoints_recv |];
       apply rtc_once, Sched.step_watchEndpoints_cancel
      | done].
  - eexists. split;
      [eapply rtc_l; [by apply Sched.step_watchEndpoints_recv |];
      apply rtc_once, Sched.step_watchEndpoints_cancel
      | done].
  - eexists. split;
      [apply rtc_once, Sched.step_watchEndpoints_cancel
      | done].
  - eexists. split; [apply rtc_refl | done].
  - eexists. split; [apply rtc_refl | done].
Qed.

Lemma phase_watch s :
  Sched.canceled s = true →
  Sched.pc_watch s ≠ Sched.W_absent →
  ∃ s', rtc Sched.step s s'
        ∧ Sched.pc_watch s' = Sched.W_done
        ∧ Sched.pc_reconcile s' = Sched.pc_reconcile s
        ∧ Sched.pc_watchEndpoints s' = Sched.pc_watchEndpoints s.
Proof.
  destruct s as [l c i m r we w]. simpl. intros -> Hw. destruct w; [done | ..].
  - eexists. split;
      [eapply rtc_l; [apply (Sched.step_watch_get false) |];
      apply rtc_once, Sched.step_watch_got_canceled
      | done].
  - eexists. split;
      [apply rtc_once, Sched.step_watch_got_canceled
      | done].
  - eexists. split;
      [apply rtc_once, Sched.step_watch_check_canceled
      | done].
  - eexists. split;
      [eapply rtc_l; [apply Sched.step_watch_decode_err |];
      eapply rtc_l; [apply (Sched.step_watch_get false) |];
      apply rtc_once, Sched.step_watch_got_canceled
      | done].
  - eexists. split; [apply rtc_refl | done].
Qed.

Lemma phase_join s :
  past_cancel (Sched.pc_watchEndpoints s) = true →
  Sched.inner_wg s = 0 →
  ∃ s', rtc Sched.step s s'
        ∧ Sched.pc_watchEndpoints s' = Sched.WE_done
        ∧ Sched.pc_reconcile s' = Sched.pc_reconcile s
        ∧ Sched.pc_watch s' = Sched.pc_watch s.
Proof.
  destruct s as [l c i m r we w]. simpl. intros Hwe ->.
  destruct we; try discriminate.
  - eexists. split; [by apply rtc_once, Sched.step_watchEndpoints_done | done].
  - eexists. split; [apply rtc_refl | done].
Qed.

Lemma phase_return s :
  Sched.pc_Shutdown s ≠ Sched.M_running →
  wg (Sched.lb s) = 0 →
  ∃ s', rtc Sched.step s s'
        ∧ Sched.pc_Shutdown s' = Sched.M_returned
        ∧ Sched.pc_reconcile s' = Sched.pc_reconcile s
        ∧ Sched.pc_watchEndpoints s' = Sched.pc_watchEndpoints s
        ∧ Sched.pc_watch s' = Sched.pc_watch s.
Proof.
  destruct s as [l c i m r we w]. simpl. intros Hm Hwg. destruct m; [done | ..].
  - eexists. split; [by apply rtc_once, Sched.step_Shutdown_return | done].
  - eexists. split; [apply rtc_refl | done].
Qed.

Lemma Sched_reachable_trans l s s' :
  Sched.reachable l s → rtc Sched.step s s' → Sched.reachable l s'.
Proof. unfold Sched.reachable. intros H1 H2. by etrans. Qed.

(** X27. The shutdown protocol cannot get stuck: from every state that a
    schedule reaches after [StartBackgroundSync], with any requests in
    flight, there is a continuation in which [Shutdown] is called (if it
    has not been) and returns with [reconcile], [watchEndpoints] and
    [watch] all ended. *)
Theorem Shutdown_can_complete l s :
  wg l = 2 →
  quit l = false →
  Sched.reachable l s →
  ∃ s', rtc Sched.step s s' ∧ Sched.quiescent s'.
Proof.
  intros Hwg Hq0 R0.
  destruct (phase_close s) as (s1 & H1 & Hm1).
  pose proof (Sched_reachable_trans l s s1 R0 H1) as R1.
  destruct (lifecycle_reachable l s1 Hq0 R1) as (Hq1 & _).
  assert (Hquit1 : quit (Sched.lb s1) = true)
    by (rewrite Hq1; by destruct (Sched.pc_Shutdown s1)).
  destruct (phase_reconcile s1 Hquit1) as (s2 & H2 & Hr2).
  pose proof (Sched_reachable_trans l s1 s2 R1 H2) as R2.
  destruct (lifecycle_reachable l s2 Hq0 R2) as (_ & _ & _ & HrJ2 & _).
  destruct (Sched_invariant_reachable l s2 Hwg R2) as (_ & _ & Hentry2 & _).
  destruct (phase_cancel s2 (HrJ2 Hr2) (proj1 Hentry2)) as (s3 & H3 & Hwe3 & Hr3).
  pose proof (Sched_reachable_trans l s2 s3 R2 H3) as R3.
  destruct (lifecycle_reachable l s3 Hq0 R3) as (_ & Hc3 & _).
  destruct (Sched_invariant_reachable l s3 Hwg R3) as (_ & _ & Hentry3 & _).
  assert (Hw3 : Sched.pc_watch s3 ≠ Sched.W_absent).
  { intros Habs. apply Hentry3 in Habs. rewrite Habs in Hwe3. done. }
  destruct (phase_watch s3) as (s4 & H4 & Hw4 & Hr4 & Hwe4);
    [by rewrite Hc3 | done |].
  pose proof (Sched_reachable_trans l s3 s4 R3 H4) as R4.
  destruct (Sched_invariant_reachable l s4 Hwg R4) as (_ & Hi4 & _).
  destruct (phase_join s4) as (s5 & H5 & Hwe5 & Hr5 & Hw5);
    [by rewrite Hwe4 | by rewrite Hi4, Hw4 |].
  pose proof (Sched_reachable_trans l s4 s5 R4 H5) as R5.
  destruct (Sched_invariant_reachable l s5 Hwg R5) as (Hwg5 & _).
  destruct (lifecycle_reachable l s5 Hq0 R5) as (Hq5 & _ & _ & HrJ5 & _).
  assert (Hrdone5 : Sched.pc_reconcile s5 = Sched.R_done) by congruence.
  destruct (phase_return s5) as (s6 & H6 & Hm6 & Hr6 & Hwe6 & Hw6).
  { intros Hrun. specialize (HrJ5 Hrdone5). rewrite Hq5, Hrun in HrJ5. done. }
  { by rewrite Hwg5, Hrdone5, Hwe5. }
  exists s6. split.
  - do 5 (etrans; [eassumption |]). done.
  - unfold Sched.quiescent, Sched.loops_exited.
    repeat split; congruence.
Qed.

Lemma Shutdown_can_complete_witness :
  ∃ s', rtc Sched.step (Sched.started (set_wg 2 lb_web)) s'
        ∧ Sched.quiescent s'.
Proof.
  apply (Shutdown_can_complete (set_wg 2 lb_web)).
  - reflexivity.
  - reflexivity.
  - apply rtc_refl.
Defined.

(** ** The example program *)

Section Main.
Context `{Environment}.

(** The balancer the program builds from its two flags. *)
Lemma main_New ns svc :
  New 1%positive
      {[1%positive := {| APIAddr := ""; Client := None; ErrorLog := None;
                         Namespace := ns; RetryDelay := 0; Service := svc;
                         SyncInterval := 0 |}]}
  = Returns
      ({| apiAddr := DefaultAPIAddr; client := Some DefaultClient;
          errorLog := Some (mkLogger Stderr "" LstdFlags);
          namespace := if decide (ns = "") then DefaultNamespace else ns;
          retryDelay := defaultRetryDelay; service := svc;
          syncInterval := defaultSyncInterval;
          quit := false; wg := 0; currentEndpoint := 0; endpoints := [] |},
       {[1%positive :=
           setDefaults {| APIAddr := ""; Client := None; ErrorLog := None;
                          Namespace := ns; RetryDelay := 0; Service := svc;
                          SyncInterval := 0 |}]}).
Proof.
  unfold New. rewrite lookup_singleton_eq, insert_singleton_eq.
  rewrite setDefaults_eq. reflexivity.
Qed.


End Main.


(** ** Selection after an update, and the reconciliation loop *)

(** X29. An update does not move the cursor, so the selection after it
    continues where the previous one stopped: on the new, non-empty set the
    next call returns the backend at the old cursor position, or the one
    at index 0 when the new set is too short for that position. *)
Theorem Next_after_update (newSet : list Endpoint) lb :
  newSet ≠ [] →
  0 ≤ currentEndpoint lb →
  let i : nat := if decide (currentEndpoint lb < len newSet)
                 then Z.to_nat (currentEndpoint lb) else 0%nat in
  ∃ e, newSet !! i = Some e ∧ (Next (update newSet lb)).1 = ok e.
Proof.
  intros Hne Hc i. subst i.
  destruct (Next_result (update newSet lb)) as (e & He & Hres); [done | done |].
  exists e. split; [| done]. unfold start_index, update in He.
  cbn [endpoints currentEndpoint set_endpoints] in He.
  destruct (decide (currentEndpoint lb < len newSet)) as [Hlt | Hlt].
  - by rewrite decide_False in He by lia.
  - by rewrite decide_True in He by lia.
Qed.

Lemma Next_after_update_witness :
  ∃ e, [ep "10.0.0.7"; ep "10.0.0.8"] !! 1%nat = Some e
       ∧ (Next (update [ep "10.0.0.7"; ep "10.0.0.8"] lb_abc_1)).1 = ok e.
Proof.
  apply (Next_after_update [ep "10.0.0.7"; ep "10.0.0.8"] lb_abc_1).
  - discriminate.
  - vm_compute. discriminate.
Defined.

Section Reconcile.
Context `{Environment}.

Lemma syncEndpoints_effect w :
  ∃ err lb',
    syncEndpoints w =
      (err, mkWorld lb'
              (sent w ++ [get_request (balancer w)
                            (endpointsPath (namespace (balancer w))
                                           (service (balancer w)))])
              (goroutines w))
    ∧ set_endpoints (endpoints (balancer w)) lb' = balancer w
    ∧ (is_Some err → lb' = balancer w).
Proof.
  destruct (syncEndpoints_cases w)
    as [(e & -> & _) | (b & eps & _ & _ & ->)].
  - eexists _, _. split; [reflexivity |].
    split; [apply set_endpoints_same | done].
  - eexists _, _. split; [reflexivity |]. split.
    + unfold update. by destruct (balancer w).
    + by intros [? ?].
Qed.


End Reconcile.

